(** * svh::scope — a hierarchical, type-keyed settings registry

    Shallow embedding of [src/svh/scope.hpp].  A scope object lives in a
    store of cells; every cell has a raw [parent] pointer and a [children]
    table from [std::type_index] keys to owned entries.  The operations
    ([push], [push_default], [pop], [get], [find]) are written as functions
    over that store, with the exceptions the header throws and the undefined
    behaviour it can run into made explicit in the outcome type.

    Destruction is not modelled: an object whose last owning [shared_ptr]
    is dropped (the nested entries of an entry that [push_default] resets)
    keeps its cell in the store, where no live node points to it any more. *)

From stdpp Require Import base decidable countable strings numbers gmap fin_maps.
From Stdlib Require Import ZArith Lia.

Local Open Scope Z_scope.

(** ** Type identity: [std::decay_t], [typeid] and [std::type_index] *)

Module TypeKey.

(** cv-qualification of an object type. *)
Inductive cv := cv_none | cv_const | cv_volatile | cv_const_volatile.

(** The fragment of the C++ type language the key computation distinguishes.
    Non-reference types come first.  The qualifier sits on the constructors
    that can carry one, so that two terms are equal exactly when they denote
    the same type: on an array the qualifier belongs to the element type and
    a function type has none. *)
Inductive obj_type :=
  | TName (q : cv) (name : string)          (* int, const Foo, ... *)
  | TPtr (q : cv) (pointee : obj_type)      (* T*, T* const, ... *)
  | TArray (elem : obj_type) (len : N)      (* T[len] *)
  | TFun (ret : obj_type) (param : obj_type). (* ret(param) *)

(** A template argument: a non-reference type or a reference to one. *)
Inductive cpp_type :=
  | TObj (t : obj_type)      (* T *)
  | TLRef (t : obj_type)     (* T& *)
  | TRRef (t : obj_type).    (* T&& *)

#[global] Instance cv_eq_dec : EqDecision cv.
Proof. solve_decision. Defined.

#[global] Instance obj_type_eq_dec : EqDecision obj_type.
Proof. solve_decision. Defined.

#[global] Instance cpp_type_eq_dec : EqDecision cpp_type.
Proof. solve_decision. Defined.

Definition cv_code (q : cv) : positive :=
  match q with
  | cv_none => 1 | cv_const => 2 | cv_volatile => 3 | cv_const_volatile => 4
  end%positive.

Definition cv_of_code (p : positive) : cv :=
  match p with
  | 1 => cv_none | 2 => cv_const | 3 => cv_volatile | _ => cv_const_volatile
  end%positive.

#[global] Instance cv_countable : Countable cv.
Proof. by apply (inj_countable' cv_code cv_of_code); intros []. Defined.

(** Serialisation of a type to a tree of leaves, used only to obtain the
    [Countable] instance that a [gmap] key needs. *)
Fixpoint type_tree (t : obj_type) : gen_tree (cv + string + N) :=
  match t with
  | TName q n => GenNode 0 [GenLeaf (inl (inl q)); GenLeaf (inl (inr n))]
  | TPtr q p => GenNode 1 [GenLeaf (inl (inl q)); type_tree p]
  | TArray e l => GenNode 2 [type_tree e; GenLeaf (inr l)]
  | TFun r p => GenNode 3 [type_tree r; type_tree p]
  end.

Fixpoint tree_type (g : gen_tree (cv + string + N)) : option obj_type :=
  match g with
  | GenNode 0 [GenLeaf (inl (inl q)); GenLeaf (inl (inr n))] => Some (TName q n)
  | GenNode 1 [GenLeaf (inl (inl q)); g1] => TPtr q <$> tree_type g1
  | GenNode 2 [g1; GenLeaf (inr l)] => (λ e, TArray e l) <$> tree_type g1
  | GenNode 3 [g1; g2] =>
      match tree_type g1, tree_type g2 with
      | Some r, Some p => Some (TFun r p)
      | _, _ => None
      end
  | _ => None
  end.

#[global] Instance obj_type_countable : Countable obj_type.
Proof.
  refine (inj_countable type_tree tree_type _).
  intros t. induction t as [q n|q p IH|e IH l|r IHr p IHp]; simpl;
    rewrite ?IH, ?IHr, ?IHp; reflexivity.
Defined.

(** [std::remove_reference_t]. *)
Definition remove_reference (t : cpp_type) : obj_type :=
  match t with
  | TObj u | TLRef u | TRRef u => u
  end.

(** [std::remove_cv_t]: drops the top-level qualifier; on an array type that
    is the qualifier of its elements. *)
Fixpoint remove_cv (t : obj_type) : obj_type :=
  match t with
  | TName _ n => TName cv_none n
  | TPtr _ p => TPtr cv_none p
  | TArray e l => TArray (remove_cv e) l
  | TFun r p => TFun r p
  end.

(** [std::decay_t]: strip the reference, then array-to-pointer,
    function-to-pointer, and otherwise drop the top-level qualifier. *)
Definition decay (t : cpp_type) : obj_type :=
  let u := remove_reference t in
  match u with
  | TArray e _ => TPtr cv_none e
  | TFun _ _ => TPtr cv_none u
  | _ => remove_cv u
  end.

(** The type a [std::type_info] obtained from [typeid(T)] stands for: a
    reference is replaced by the referred type and top-level qualifiers are
    ignored. *)
Definition typeid (t : cpp_type) : obj_type :=
  remove_cv (remove_reference t).

(** A [std::type_index] wraps a [std::type_info]; two of them compare equal
    exactly when they stand for the same type. *)
Abbreviation type_index := obj_type (only parsing).

(** [scope::get_type_key<T>()] (scope.hpp:179-180). *)
Definition get_type_key (T : cpp_type) : type_index :=
  typeid (TObj (decay T)).

End TypeKey.

Import TypeKey.

(** ** The scope store and its operations *)

Module Scope.

(** Addresses of scope objects. *)
Abbreviation addr := positive (only parsing).

(** What the tree needs from the consumer-defined [type_settings<T>]: a
    default-constructed payload for every type.  Copying a payload is copying
    the value. *)
Class Payload (val : Type) := default_construct : cpp_type → val.

(** [std::runtime_error]s thrown by the header, by message. *)
Inductive error :=
  | TypeMismatch   (* "Existing child has unexpected type" *)
  | NoParent       (* "No parent to pop to" *)
  | NotFound.      (* "Type not found" *)

(** Undefined behaviour the code can run into. *)
Inductive undefined :=
  | NullDeref        (* member access through a null [parent] *)
  | DanglingDeref    (* access to an object that is not in the store *)
  | SignedOverflow.  (* [--count] below [INT_MIN] *)

Inductive outcome (A : Type) :=
  | Ret (a : A)
  | Throw (e : error)
  | Undefined (u : undefined)
  | OutOfFuel.
Arguments Ret {A} a.
Arguments Throw {A} e.
Arguments Undefined {A} u.
Arguments OutOfFuel {A}.

(** The least value of [int]. *)
Definition INT_MIN : Z := - 2 ^ 31.

Section scope.
Context {val : Type} `{!Payload val}.

(** The dynamic class of a scope object together with its data members. *)
Inductive object :=
  | PlainScope                               (* svh::scope *)
  | TypeSettings (T : cpp_type) (v : val).   (* type_settings<T> *)

(** [struct scope] (scope.hpp:173-174). *)
Record scope := Scope {
  dynamic : object;
  parent : option addr;                 (* scope* parent = nullptr *)
  children : gmap obj_type addr         (* unordered_map<type_index, shared_ptr<scope>> *)
}.

Abbreviation store := (gmap positive scope).

Definition with_parent (p : option addr) (n : scope) : scope :=
  {| dynamic := dynamic n; parent := p; children := children n |}.

Definition with_children (m : gmap obj_type addr) (n : scope) : scope :=
  {| dynamic := dynamic n; parent := parent n; children := m |}.

(** scope.hpp:176-177 *)
Definition is_root (n : scope) : bool :=
  match parent n with None => true | Some _ => false end.
Definition has_parent (n : scope) : bool :=
  match parent n with None => false | Some _ => true end.

(** [svh::scope root;] *)
Definition new_scope : scope :=
  {| dynamic := PlainScope; parent := None; children := ∅ |}.

(** [type_settings<T>{}]: default members, [parent = nullptr], no children. *)
Definition value_init (T : cpp_type) : scope :=
  {| dynamic := TypeSettings T (default_construct T); parent := None; children := ∅ |}.

(** The implicit copy constructor of [type_settings<T>]: the data members
    and both members of the [scope] base are copied. *)
Definition copy_construct (src : scope) : scope :=
  {| dynamic := dynamic src; parent := parent src; children := children src |}.

(** [std::unordered_map::emplace]: no effect when the key is present. *)
Definition emplace (k : obj_type) (c : addr) (m : gmap obj_type addr) : gmap obj_type addr :=
  match m !! k with
  | Some _ => m
  | None => <[k := c]> m
  end.

(** [dynamic_cast<type_settings<T>*>(p)]. *)
Definition dynamic_cast (T : cpp_type) (h : store) (p : addr) : outcome (option addr) :=
  match h !! p with
  | None => Undefined DanglingDeref
  | Some n =>
      match dynamic n with
      | TypeSettings U _ => if decide (U = T) then Ret (Some p) else Ret None
      | PlainScope => Ret None
      end
  end.

(** [scope::find<T>() const] (scope.hpp:140-155).  One unit of fuel per
    visited node. *)
Fixpoint find (fuel : nat) (h : store) (this : addr) (T : cpp_type) : outcome (option addr) :=
  match fuel with
  | O => OutOfFuel
  | S fuel' =>
      match h !! this with
      | None => Undefined DanglingDeref
      | Some n =>
          match children n !! get_type_key T with
          | Some p =>
              match dynamic_cast T h p with
              | Ret (Some found) => Ret (Some found)
              | Ret None => Throw TypeMismatch
              | other => other
              end
          | None =>
              match parent n with
              | Some p => find fuel' h p T
              | None => Ret None
              end
          end
      end
  end.

(** [scope::emplace_new<T>()] (scope.hpp:182-190). *)
Definition emplace_new (h : store) (this : addr) (T : cpp_type) : outcome addr * store :=
  let key := get_type_key T in
  let child := fresh (dom h) in
  let h1 := <[child := value_init T]> h in
  let h2 := alter (with_parent (Some this)) child h1 in
  let h3 := alter (λ n, with_children (emplace key child (children n)) n) this h2 in
  (Ret child, h3).

(** [scope::push_default<T>()] (scope.hpp:58-75).  The assignment
    [*found = type_settings<T>{}] is the implicit copy assignment: it
    assigns the data members and both members of the [scope] base.  The
    objects nested in [found], which the assignment of [children] destroys,
    keep their cells here (see the note at the top): nothing is to be read
    off those cells after the call. *)
Definition push_default (h : store) (this : addr) (T : cpp_type) : outcome addr * store :=
  match h !! this with
  | None => (Undefined DanglingDeref, h)
  | Some n =>
      match children n !! get_type_key T with
      | Some p =>
          match dynamic_cast T h p with
          | Ret (Some found) => (Ret found, <[found := value_init T]> h)
          | Ret None => (Throw TypeMismatch, h)
          | Throw e => (Throw e, h)
          | Undefined u => (Undefined u, h)
          | OutOfFuel => (OutOfFuel, h)
          end
      | None => emplace_new h this T
      end
  end.

(** [scope::pop(int count) const] (scope.hpp:82-91).  In
    [parent->pop(--count)] the object expression is evaluated before the
    argument, so a null [parent] is met before the decrement. *)
Fixpoint pop (fuel : nat) (h : store) (this : addr) (count : Z) : outcome addr :=
  match fuel with
  | O => OutOfFuel
  | S fuel' =>
      match h !! this with
      | None => Undefined DanglingDeref
      | Some n =>
          if negb (has_parent n) && (count =? 1) then Throw NoParent
          else if count =? 1 then
            match parent n with
            | Some p => Ret p
            | None => Undefined NullDeref
            end
          else
            match parent n with
            | None => Undefined NullDeref
            | Some p =>
                if count - 1 <? INT_MIN then Undefined SignedOverflow
                else pop fuel' h p (count - 1)
            end
      end
  end.

(** [scope::_push<T>()] (scope.hpp:193-222). *)
Definition _push (fuel : nat) (h : store) (this : addr) (T : cpp_type) : outcome addr * store :=
  let key := get_type_key T in
  match h !! this with
  | None => (Undefined DanglingDeref, h)
  | Some n =>
      match children n !! key with
      | Some p =>
          match dynamic_cast T h p with
          | Ret (Some found) => (Ret found, h)
          | Ret None => (Throw TypeMismatch, h)
          | Throw e => (Throw e, h)
          | Undefined u => (Undefined u, h)
          | OutOfFuel => (OutOfFuel, h)
          end
      | None =>
          if has_parent n then
            match find fuel h this T with
            | Ret (Some found) =>
                match h !! found with
                | None => (Undefined DanglingDeref, h)
                | Some src =>
                    let child := fresh (dom h) in
                    let h1 := <[child := copy_construct src]> h in
                    let h2 := alter (with_parent (Some this)) child h1 in
                    let h3 := alter (with_children ∅) child h2 in
                    let h4 :=
                      alter (λ n, with_children (emplace key child (children n)) n) this h3 in
                    (Ret child, h4)
                end
            | Ret None => emplace_new h this T
            | Throw e => (Throw e, h)
            | Undefined u => (Undefined u, h)
            | OutOfFuel => (OutOfFuel, h)
            end
          else emplace_new h this T
      end
  end.

(** [scope::_get<T>()], the non-const overload (scope.hpp:225-238).
    [auto_insert] is the value of the macro [SVH_AUTO_INSERT]. *)
Definition _get (auto_insert : bool) (fuel : nat) (h : store) (this : addr) (T : cpp_type)
  : outcome addr * store :=
  match find fuel h this T with
  | Ret (Some found) => (Ret found, h)
  | Ret None =>
      match h !! this with
      | None => (Undefined DanglingDeref, h)
      | Some n =>
          if is_root n && auto_insert then emplace_new h this T
          else (Throw NotFound, h)
      end
  | Throw e => (Throw e, h)
  | Undefined u => (Undefined u, h)
  | OutOfFuel => (OutOfFuel, h)
  end.

(** [scope::_get<T>() const] (scope.hpp:240-247). *)
Definition _get_const (fuel : nat) (h : store) (this : addr) (T : cpp_type) : outcome addr :=
  match find fuel h this T with
  | Ret (Some found) => Ret found
  | Ret None => Throw NotFound
  | Throw e => Throw e
  | Undefined u => Undefined u
  | OutOfFuel => OutOfFuel
  end.

(** The public single-type entry points (scope.hpp:32-35, 100-103). *)
Definition push := _push.
Definition get := _get.

(** [scope::push<T, U, Rest...>()] (scope.hpp:44-50).  [Us] is the list
    [U, Rest...]; with [Us] empty the call is the single-type [push<T>()]. *)
Fixpoint push_chain (fuel : nat) (h : store) (this : addr) (T : cpp_type)
    (Us : list cpp_type) : outcome addr * store :=
  match Us with
  | [] => push fuel h this T
  | U :: Rest =>
      match _push fuel h this T with
      | (Ret next, h1) => push_chain fuel h1 next U Rest
      | other => other
      end
  end.

(** [scope::get<T, U, Rest...>()], the non-const overload
    (scope.hpp:105-111). *)
Fixpoint get_chain (auto_insert : bool) (fuel : nat) (h : store) (this : addr)
    (T : cpp_type) (Us : list cpp_type) : outcome addr * store :=
  match Us with
  | [] => get auto_insert fuel h this T
  | U :: Rest =>
      match _get auto_insert fuel h this T with
      | (Ret next, h1) => get_chain auto_insert fuel h1 next U Rest
      | other => other
      end
  end.

(** [scope::get<T, U, Rest...>() const] (scope.hpp:125-131): inside a const
    member, [_get<T>()] is the const overload and so is the call on its
    result. *)
Fixpoint get_const_chain (fuel : nat) (h : store) (this : addr)
    (T : cpp_type) (Us : list cpp_type) : outcome addr :=
  match Us with
  | [] => _get_const fuel h this T
  | U :: Rest =>
      match _get_const fuel h this T with
      | Ret next => get_const_chain fuel h next U Rest
      | other => other
      end
  end.

(** A consumer writing the data members of the entry it holds a reference
    to, as in [node.push<T>().field = v]. *)
Definition write_value (e : addr) (v : val) (h : store) : store :=
  alter (λ n, match dynamic n with
              | TypeSettings T _ =>
                  {| dynamic := TypeSettings T v; parent := parent n; children := children n |}
              | PlainScope => n
              end) e h.

(** A store holding one freshly constructed root at address 1. *)
Definition root : addr := 1%positive.
Definition root_store : store := {[ root := new_scope ]}.

(** ** Notions the statements are written with *)

(** The addresses met when following [parent] from [a] up to a node with a
    null [parent], nearest first; [None] when the walk leaves the store or
    does not end within [fuel] steps. *)
Fixpoint ancestors (fuel : nat) (h : store) (a : addr) : option (list addr) :=
  match fuel with
  | O => None
  | S fuel' =>
      match h !! a with
      | None => None
      | Some n =>
          match parent n with
          | None => Some []
          | Some p => cons p <$> ancestors fuel' h p
          end
      end
  end.

(** The entry stored at node [a] under the key of [T], if any. *)
Definition entry_at (h : store) (a : addr) (T : cpp_type) : option addr :=
  h !! a ≫= λ n, children n !! get_type_key T.

(** The object at [e] is a [type_settings<T>]. *)
Definition holds_type (h : store) (e : addr) (T : cpp_type) : Prop :=
  ∃ n v, h !! e = Some n ∧ dynamic n = TypeSettings T v.

(** The object at [e] is a [type_settings<T>] whose data members are [v]. *)
Definition holds_value (h : store) (e : addr) (T : cpp_type) (v : val) : Prop :=
  ∃ n, h !! e = Some n ∧ dynamic n = TypeSettings T v.

(** No node of the store has an entry under the key of [T]. *)
Definition never_pushed (h : store) (T : cpp_type) : Prop :=
  map_Forall (λ _ n, children n !! get_type_key T = None) h.

(** The store after node [this] (whose cell was [n]) has gained the new
    object [nc], placed at the unused address [c], as its entry under [k]. *)
Definition attach (h : store) (this : addr) (n : scope) (k : obj_type) (c : addr) (nc : scope)
  : store :=
  <[this := with_children (<[k := c]> (children n)) n]> (<[c := nc]> h).

(** Node [a] has [c] as its entry under key [k]. *)
Definition owns (h : store) (a : addr) (k : obj_type) (c : addr) : Prop :=
  ∃ n, h !! a = Some n ∧ children n !! k = Some c.

(** The shape every store built by the operations has: an entry is
    allocated and stored under the key of its own type, it has one owner,
    its [parent] is that owner or null, and every parent walk is finite. *)
Record tree_ok (h : store) : Prop := TreeOk {
  ok_entry : ∀ a k c, owns h a k c → ∃ T, holds_type h c T ∧ get_type_key T = k;
  ok_owner : ∀ a1 k1 a2 k2 c, owns h a1 k1 c → owns h a2 k2 c → a1 = a2 ∧ k1 = k2;
  ok_parent : ∀ a k c nc,
    owns h a k c → h !! c = Some nc → parent nc = Some a ∨ parent nc = None;
  ok_chain : ∀ a, is_Some (h !! a) → ∃ fuel l, ancestors fuel h a = Some l
}.

(** Store [h'] keeps every object of [h]: same dynamic class and data
    members, same [parent], and at least the entries it had. *)
Definition keeps (h h' : store) : Prop :=
  ∀ x nx, h !! x = Some nx →
    ∃ nx', h' !! x = Some nx' ∧ dynamic nx' = dynamic nx ∧
           parent nx' = parent nx ∧ children nx ⊆ children nx'.

(** Object [x] is nested in [c]: it is an entry of [c], or an entry of an
    object nested in [c].  These are the objects whose last owner goes away
    when the entries of [c] are dropped. *)
Inductive nested_in (h : store) (c : addr) : addr → Prop :=
  | nested_entry k x : owns h c k x → nested_in h c x
  | nested_deeper y k x : nested_in h c y → owns h y k x → nested_in h c x.

(** Owners and parents come first: some numbering of the objects gives
    every entry a larger number than its owner, and every object a larger
    number than the object its [parent] points to. *)
Definition ranked (h : store) : Prop :=
  ∃ rank : addr → nat,
    (∀ a k c, owns h a k c → (rank a < rank c)%nat) ∧
    (∀ x nx p, h !! x = Some nx → parent nx = Some p → (rank p < rank x)%nat).

(** What a store can look like after [_push] or [_get]: unchanged, or one
    fresh entry attached to [this]. *)
Inductive grows (h : store) (this : addr) (T : cpp_type) (h' : store) : Prop :=
  | grows_same : h' = h → grows h this T h'
  | grows_attach n v :
      h !! this = Some n → children n !! get_type_key T = None →
      h' = attach h this n (get_type_key T) (fresh (dom h))
             {| dynamic := TypeSettings T v; parent := Some this; children := ∅ |} →
      grows h this T h'.

(** After [push_default] there is one more possibility: the entry of
    [this] for [T] has been overwritten with [type_settings<T>{}]. *)
Inductive resets (h : store) (this : addr) (T : cpp_type) (h' : store) : Prop :=
  | resets_entry c :
      owns h this (get_type_key T) c → holds_type h c T →
      h' = <[c := value_init T]> h → resets h this T h'.

End scope.

Arguments object val : clear implicits.
Arguments scope val : clear implicits.

End Scope.

Import Scope.

#[local] Instance Z_payload : Payload Z := λ _, 0.

(** [int], [const int] and [double] as template arguments. *)
Definition t_int : cpp_type := TObj (TName cv_none "int").
Definition t_const_int : cpp_type := TObj (TName cv_const "int").
Definition t_double : cpp_type := TObj (TName cv_none "double").

(** Small stores with [Z] payloads, built by the operations themselves. *)

(** After [root.push<int>()]: the entry is object 2. *)
Definition store_child : gmap positive (scope Z) :=
  (_push 2 root_store root t_int).2.

(** After [root.push<int>().push<double>()]: object 3 is two levels below
    the root. *)
Definition store_two_below : gmap positive (scope Z) :=
  (_push 3 store_child 2 t_double).2.

(** After [root.push<int>().push<int>()]: object 3 is the [int] entry of
    object 2, which is the [int] entry of the root. *)
Definition store_int_int : gmap positive (scope Z) :=
  (_push 2 store_child 2 t_int).2.

(** After [root.push<int>().push<int>().push<double>()]: object 4 is nested
    in object 3, the [int] entry of object 2. *)
Definition store_int_int_double : gmap positive (scope Z) :=
  (_push 3 store_int_int 3 t_double).2.

(** ** Type keys *)

Lemma typeid_decay T : typeid (TObj (decay T)) = decay T.
Proof. by destruct T as [[]|[]|[]]. Qed.

(** C9 (as amended).  Two payload types have equal keys exactly when their
    decayed forms ([std::decay_t]) are the same type: the key is a function
    of the type, it separates any two types that differ after decay, and it
    identifies a type with its reference and cv-qualified variants. *)
Theorem type_key_equal_iff (T U : cpp_type) :
  get_type_key T = get_type_key U ↔ decay T = decay U.
Proof. unfold get_type_key. by rewrite !typeid_decay. Qed.

(** C9, counterexample: [int] and [const int] are distinct payload types
    with the same key. *)
Lemma type_key_not_injective :
  t_int ≠ t_const_int ∧ get_type_key t_int = get_type_key t_const_int.
Proof. split; [discriminate | reflexivity]. Qed.

(** The key separates types that are already decayed, such as two distinct
    class types. *)
Lemma type_key_injective_decayed (t u : obj_type) :
  decay (TObj t) = t → decay (TObj u) = u → t ≠ u →
  get_type_key (TObj t) ≠ get_type_key (TObj u).
Proof. intros Ht Hu Hne. unfold get_type_key. rewrite !typeid_decay, Ht, Hu. exact Hne. Qed.


(** ** Parent walks *)

Section walks.
Context {val : Type} `{!Payload val}.
Implicit Types (h : gmap positive (scope val)) (a p c d : positive) (T : cpp_type).
Implicit Types (l : list positive) (n : scope val).

Lemma ancestors_length fuel h a l :
  ancestors fuel h a = Some l → (length l < fuel)%nat.
Proof.
  revert a l. induction fuel as [|fuel IH]; intros a l; simpl; [done|].
  destruct (h !! a) as [n|]; [|done].
  destruct (parent n) as [p|]; [|intros [= <-]; simpl; lia].
  destruct (ancestors fuel h p) as [l'|] eqn:E; simpl; [|done].
  intros [= <-]. apply IH in E. simpl. lia.
Qed.

Lemma ancestors_mono fuel fuel' h a l :
  (fuel ≤ fuel')%nat → ancestors fuel h a = Some l → ancestors fuel' h a = Some l.
Proof.
  revert fuel' a l. induction fuel as [|fuel IH]; intros fuel' a l Hle; simpl; [done|].
  destruct fuel' as [|fuel']; [lia|]. simpl.
  destruct (h !! a) as [n|]; [|done].
  destruct (parent n) as [p|]; [|done].
  destruct (ancestors fuel h p) as [l'|] eqn:E; simpl; [|done].
  intros [= <-]. by rewrite (IH fuel' p l') by (done || lia).
Qed.

Lemma ancestors_agree fuel1 fuel2 h a l1 l2 :
  ancestors fuel1 h a = Some l1 → ancestors fuel2 h a = Some l2 → l1 = l2.
Proof.
  intros H1 H2.
  apply (ancestors_mono _ (fuel1 `max` fuel2)) in H1; [|lia].
  apply (ancestors_mono _ (fuel1 `max` fuel2)) in H2; [|lia].
  congruence.
Qed.

(** The walk from an ancestor is the rest of the walk. *)
Lemma ancestors_suffix fuel h a l1 p l2 :
  ancestors fuel h a = Some (l1 ++ p :: l2) →
  ancestors (fuel - S (length l1)) h p = Some l2.
Proof.
  revert a l1. induction fuel as [|fuel IH]; intros a l1; simpl; [done|].
  destruct (h !! a) as [n|]; [|done].
  destruct (parent n) as [q|]; [|by destruct l1].
  destruct (ancestors fuel h q) as [l'|] eqn:E; simpl; [|done].
  intros [= Hl]. destruct l1 as [|x l1]; simpl in *.
  - injection Hl as -> ->. by rewrite Nat.sub_0_r.
  - injection Hl as -> ->. by apply IH in E.
Qed.

(** A parent walk never comes back to its starting point. *)
Lemma ancestors_acyclic fuel h a l :
  ancestors fuel h a = Some l → a ∉ l.
Proof.
  intros Hl [l1 [l2 ->]]%list_elem_of_split.
  pose proof (ancestors_suffix _ _ _ _ _ _ Hl) as Hs.
  pose proof (ancestors_agree _ _ _ _ _ _ Hl Hs) as Heq.
  apply (f_equal length) in Heq. rewrite length_app in Heq. simpl in Heq. lia.
Qed.

(** *** [find] along the walk *)

Lemma find_none fuel h a l T :
  ancestors fuel h a = Some l →
  Forall (λ x, entry_at h x T = None) (a :: l) →
  find fuel h a T = Ret None.
Proof.
  revert a l. induction fuel as [|fuel IH]; intros a l; simpl; [done|].
  unfold entry_at at 1. intros Hl Hall.
  apply Forall_cons in Hall as [Ha Hall]. revert Hl Ha.
  destruct (h !! a) as [n|]; simpl; [|done].
  intros Hl ->.
  destruct (parent n) as [p|]; [|done].
  destruct (ancestors fuel h p) as [l'|] eqn:E; simpl in Hl; [|done].
  injection Hl as <-. by apply (IH p l').
Qed.

Lemma find_here fuel h a n d T :
  h !! a = Some n → children n !! get_type_key T = Some d → holds_type h d T →
  find (S fuel) h a T = Ret (Some d).
Proof.
  intros Ha Hd (nd & v & Hnd & Hdyn). simpl. rewrite Ha, Hd.
  unfold dynamic_cast. rewrite Hnd, Hdyn. by rewrite decide_True.
Qed.

Lemma find_nearest fuel h a l1 p l2 d T :
  ancestors fuel h a = Some (l1 ++ p :: l2) →
  Forall (λ x, entry_at h x T = None) (a :: l1) →
  entry_at h p T = Some d → holds_type h d T →
  find fuel h a T = Ret (Some d).
Proof.
  revert a l1. induction fuel as [|fuel IH]; intros a l1; simpl; [done|].
  unfold entry_at at 1. intros Hl Hall Hp Hd.
  apply Forall_cons in Hall as [Ha Hall]. revert Hl Ha.
  destruct (h !! a) as [n|]; simpl; [|done].
  intros Hl ->.
  destruct (parent n) as [q|]; [|by destruct l1].
  destruct (ancestors fuel h q) as [l'|] eqn:E; simpl in Hl; [|done].
  injection Hl as Hl. destruct l1 as [|x l1]; simpl in Hl; injection Hl as -> ->.
  - unfold entry_at in Hp. destruct (h !! p) as [np|] eqn:Enp; simpl in Hp; [|done].
    destruct fuel as [|fuel]; [done|]. by eapply find_here.
  - by apply (IH x l1).
Qed.

(** *** [pop] along the walk *)

Lemma pop_ancestor fuel h a l k p count :
  ancestors fuel h a = Some l → l !! k = Some p → count = Z.of_nat k + 1 →
  pop fuel h a count = Ret p.
Proof.
  revert a l k count.
  induction fuel as [|fuel IH]; intros a l k count; simpl ancestors; [done|].
  cbn [pop]. destruct (h !! a) as [n|]; [|done]. unfold has_parent.
  destruct (parent n) as [q|]; [|by intros [= <-]].
  destruct (ancestors fuel h q) as [l'|] eqn:E; simpl; [|done].
  intros [= <-] Hk Hc. destruct k as [|k]; simpl in Hk.
  - injection Hk as ->. by replace (count =? 1) with true by (symmetry; apply Z.eqb_eq; lia).
  - replace (count =? 1) with false by (symmetry; apply Z.eqb_neq; lia).
    replace (count - 1 <? INT_MIN) with false
      by (symmetry; apply Z.ltb_ge; unfold INT_MIN; lia).
    apply (IH q l' k); [done|done|lia].
Qed.

Lemma pop_no_parent fuel h a l count :
  ancestors fuel h a = Some l → count = Z.of_nat (length l) + 1 →
  pop fuel h a count = Throw NoParent.
Proof.
  revert a l count.
  induction fuel as [|fuel IH]; intros a l count; simpl ancestors; [done|].
  cbn [pop]. destruct (h !! a) as [n|]; [|done]. unfold has_parent.
  destruct (parent n) as [q|].
  - destruct (ancestors fuel h q) as [l'|] eqn:E; simpl; [|done].
    intros [= <-] Hc. simpl length in Hc.
    replace (count =? 1) with false by (symmetry; apply Z.eqb_neq; lia).
    replace (count - 1 <? INT_MIN) with false
      by (symmetry; apply Z.ltb_ge; unfold INT_MIN; lia).
    apply (IH q l'); [done|lia].
  - intros [= <-] Hc. simpl in Hc.
    by replace (count =? 1) with true by (symmetry; apply Z.eqb_eq; lia).
Qed.

Lemma pop_null_deref fuel h a l count :
  ancestors fuel h a = Some l →
  count ≤ 0 ∨ Z.of_nat (length l) + 1 < count →
  INT_MIN ≤ count - Z.of_nat (length l) →
  pop fuel h a count = Undefined NullDeref.
Proof.
  revert a l count. induction fuel as [|fuel IH]; intros a l count; simpl ancestors; [done|].
  cbn [pop]. destruct (h !! a) as [n|]; [|done]. unfold has_parent.
  destruct (parent n) as [q|].
  - destruct (ancestors fuel h q) as [l'|] eqn:E; simpl; [|done].
    intros [= <-] Hc Hmin. simpl length in *.
    replace (count =? 1) with false by (symmetry; apply Z.eqb_neq; lia).
    replace (count - 1 <? INT_MIN) with false by (symmetry; apply Z.ltb_ge; lia).
    apply (IH q l'); [done|lia|lia].
  - intros [= <-] Hc _. simpl in Hc.
    by replace (count =? 1) with false by (symmetry; apply Z.eqb_neq; lia).
Qed.

Lemma pop_undefined fuel h a l count :
  ancestors fuel h a = Some l →
  count ≤ 0 ∨ Z.of_nat (length l) + 1 < count →
  ∃ u, pop fuel h a count = Undefined u.
Proof.
  revert a l count. induction fuel as [|fuel IH]; intros a l count; simpl ancestors; [done|].
  cbn [pop]. destruct (h !! a) as [n|]; [|done]. unfold has_parent.
  destruct (parent n) as [q|].
  - destruct (ancestors fuel h q) as [l'|] eqn:E; simpl; [|done].
    intros [= <-] Hc. simpl length in *.
    replace (count =? 1) with false by (symmetry; apply Z.eqb_neq; lia).
    destruct (count - 1 <? INT_MIN); [by eexists|].
    apply (IH q l'); [done|lia].
  - intros [= <-] Hc. simpl in Hc.
    replace (count =? 1) with false by (symmetry; apply Z.eqb_neq; lia).
    by eexists.
Qed.

End walks.

(** ** What one operation does to the store *)

Section steps.
Context {val : Type} `{!Payload val}.
Implicit Types (h : gmap positive (scope val)) (a p c d this : positive) (T : cpp_type).
Implicit Types (l : list positive) (n : scope val).

Lemma alter_lookup_insert h a n (f : scope val → scope val) :
  h !! a = Some n → alter f a h = <[a := f n]> h.
Proof.
  intros Ha. apply map_eq; intros x. destruct (decide (a = x)) as [->|Hne].
  - by rewrite lookup_alter_eq, lookup_insert_eq, Ha.
  - by rewrite lookup_alter_ne, lookup_insert_ne.
Qed.

Lemma fresh_unused h : h !! fresh (dom h) = None.
Proof. apply not_elem_of_dom, is_fresh. Qed.

Lemma fresh_ne h a n : h !! a = Some n → a ≠ fresh (dom h).
Proof. intros Ha ->. by rewrite fresh_unused in Ha. Qed.

Lemma attach_new h this n k c nc :
  this ≠ c → attach h this n k c nc !! c = Some nc.
Proof. intros Hne. unfold attach. by rewrite lookup_insert_ne, lookup_insert_eq. Qed.

Lemma attach_this h this n k c nc :
  attach h this n k c nc !! this = Some (with_children (<[k := c]> (children n)) n).
Proof. unfold attach. by rewrite lookup_insert_eq. Qed.

Lemma attach_other h this n k c nc x :
  x ≠ this → x ≠ c → attach h this n k c nc !! x = h !! x.
Proof. intros H1 H2. unfold attach. by rewrite !lookup_insert_ne. Qed.

(** [emplace_new] on a node without an entry for the key. *)
Lemma emplace_new_attach h this n T :
  h !! this = Some n → children n !! get_type_key T = None →
  emplace_new h this T =
    (Ret (fresh (dom h)),
     attach h this n (get_type_key T) (fresh (dom h))
       {| dynamic := TypeSettings T (default_construct T);
          parent := Some this; children := ∅ |}).
Proof.
  intros Ha Hk. unfold emplace_new, attach. f_equal.
  pose proof (fresh_ne _ _ _ Ha) as Hne.
  rewrite alter_insert_eq.
  rewrite (alter_lookup_insert _ this n) by (by rewrite lookup_insert_ne).
  unfold emplace. by rewrite Hk.
Qed.

(** The copying branch of [_push]. *)
Lemma push_copy_attach fuel h this n d src T :
  h !! this = Some n → children n !! get_type_key T = None →
  is_Some (parent n) → find fuel h this T = Ret (Some d) → h !! d = Some src →
  _push fuel h this T =
    (Ret (fresh (dom h)),
     attach h this n (get_type_key T) (fresh (dom h))
       {| dynamic := dynamic src; parent := Some this; children := ∅ |}).
Proof.
  intros Ha Hk [q Hq] Hfind Hd. unfold _push, attach.
  rewrite Ha, Hk. unfold has_parent. rewrite Hq, Hfind, Hd. f_equal.
  pose proof (fresh_ne _ _ _ Ha) as Hne.
  rewrite !alter_insert_eq.
  rewrite (alter_lookup_insert _ this n) by (by rewrite lookup_insert_ne).
  unfold emplace. by rewrite Hk.
Qed.

(** The reusing branch of [_push]. *)
Lemma push_reuse fuel h this n c T :
  h !! this = Some n → children n !! get_type_key T = Some c → holds_type h c T →
  _push fuel h this T = (Ret c, h).
Proof.
  intros Ha Hk (nc & v & Hc & Hdyn). unfold _push, dynamic_cast.
  rewrite Ha, Hk, Hc, Hdyn. by rewrite decide_True.
Qed.

(** The resetting branch of [push_default]. *)
Lemma push_default_reset h this n c T :
  h !! this = Some n → children n !! get_type_key T = Some c → holds_type h c T →
  push_default h this T = (Ret c, <[c := value_init T]> h).
Proof.
  intros Ha Hk (nc & v & Hc & Hdyn). unfold push_default, dynamic_cast.
  rewrite Ha, Hk, Hc, Hdyn. by rewrite decide_True.
Qed.

End steps.

(** ** The shape of the store is kept by every operation *)

Section shape.
Context {val : Type} `{!Payload val}.
Implicit Types (h : gmap positive (scope val)) (a p c d this : positive) (T : cpp_type).
Implicit Types (l : list positive) (n : scope val) (k : obj_type).

Lemma holds_type_unique h e T U : holds_type h e T → holds_type h e U → T = U.
Proof. intros (n & v & Hn & Hd) (n' & v' & Hn' & Hd'). congruence. Qed.

Lemma ancestors_ext fuel h h' a l :
  (∀ x nx, h !! x = Some nx → ∃ nx', h' !! x = Some nx' ∧ parent nx' = parent nx) →
  ancestors fuel h a = Some l → ancestors fuel h' a = Some l.
Proof.
  intros Hext. revert a l. induction fuel as [|fuel IH]; intros a l; simpl; [done|].
  destruct (h !! a) as [n|] eqn:Ha; [|done].
  destruct (Hext _ _ Ha) as (n' & -> & ->).
  destruct (parent n) as [q|]; [|done].
  destruct (ancestors fuel h q) as [l'|] eqn:E; simpl; [|done].
  intros [= <-]. by rewrite (IH q l').
Qed.

Lemma tree_ok_root : tree_ok (root_store (val := val)).
Proof.
  unfold root_store. split.
  - intros a k c (n & Hn & Hk). apply lookup_singleton_Some in Hn as [_ <-]. done.
  - intros a1 k1 a2 k2 c (n & Hn & Hk). apply lookup_singleton_Some in Hn as [_ <-]. done.
  - intros a k c nc (n & Hn & Hk). apply lookup_singleton_Some in Hn as [_ <-]. done.
  - intros a [n Hn]. apply lookup_singleton_Some in Hn as [<- <-].
    exists 1%nat, []. simpl. by rewrite lookup_singleton_eq.
Qed.

Section attach.
Variables (h : gmap positive (scope val)) (this : positive) (n : scope val).
Variables (T : cpp_type) (v : val) (c : positive).
Hypothesis Hok : tree_ok h.
Hypothesis Hthis : h !! this = Some n.
Hypothesis Hkey : children n !! get_type_key T = None.
Hypothesis Hc : h !! c = None.

Let nc : scope val :=
  {| dynamic := TypeSettings T v; parent := Some this; children := ∅ |}.
Let h' := attach h this n (get_type_key T) c nc.

Lemma attach_ne : this ≠ c.
Proof. intros ->. by rewrite Hthis in Hc. Qed.

Lemma attach_owns a k e :
  owns h' a k e ↔ owns h a k e ∨ (a = this ∧ k = get_type_key T ∧ e = c).
Proof.
  pose proof attach_ne as Hne. unfold owns, h'. split.
  - intros (m & Hm & Hk). destruct (decide (a = this)) as [->|Ha].
    + rewrite attach_this in Hm. injection Hm as <-. simpl in Hk.
      destruct (decide (k = get_type_key T)) as [->|Hkne].
      * rewrite lookup_insert_eq in Hk. injection Hk as <-. by right.
      * rewrite lookup_insert_ne in Hk by done. left. by exists n.
    + destruct (decide (a = c)) as [->|Hac].
      * rewrite attach_new in Hm by done. injection Hm as <-. done.
      * rewrite attach_other in Hm by done. left. by exists m.
  - intros [(m & Hm & Hk)|(-> & -> & ->)].
    + destruct (decide (a = this)) as [->|Ha].
      * rewrite attach_this. eexists; split; [done|]. simpl.
        assert (m = n) as -> by congruence.
        rewrite lookup_insert_ne; [done|]. intros <-. congruence.
      * assert (a ≠ c) by (intros ->; congruence).
        rewrite attach_other by done. by exists m.
    + rewrite attach_this. eexists; split; [done|]. simpl. by rewrite lookup_insert_eq.
Qed.

Lemma attach_holds_type e U : holds_type h e U → holds_type h' e U.
Proof.
  pose proof attach_ne as Hne. intros (m & w & Hm & Hd). unfold holds_type, h'.
  destruct (decide (e = this)) as [->|He].
  - rewrite attach_this. assert (m = n) as -> by congruence. by eexists _, w.
  - assert (e ≠ c) by (intros ->; congruence).
    rewrite attach_other by done. by exists m, w.
Qed.

Lemma attach_parents x nx :
  h !! x = Some nx → ∃ nx', h' !! x = Some nx' ∧ parent nx' = parent nx.
Proof.
  pose proof attach_ne as Hne. intros Hx. unfold h'.
  destruct (decide (x = this)) as [->|Hxt].
  - rewrite attach_this. assert (nx = n) as -> by congruence. by eexists.
  - assert (x ≠ c) by (intros ->; congruence).
    rewrite attach_other by done. by exists nx.
Qed.

Lemma tree_ok_attach : tree_ok h'.
Proof.
  pose proof attach_ne as Hne. destruct Hok as [Hentry Howner Hparent Hchain]. split.
  - intros a k e [Ho|(-> & -> & ->)]%attach_owns.
    + destruct (Hentry _ _ _ Ho) as (U & HU & <-). exists U. split; [|done].
      by apply attach_holds_type.
    + exists T. split; [|done]. exists nc, v. unfold h'. by rewrite attach_new.
  - intros a1 k1 a2 k2 e [H1|(-> & -> & ->)]%attach_owns [H2|(-> & -> & He)]%attach_owns.
    + by eapply Howner.
    + subst e. destruct (Hentry _ _ _ H1) as (U & (m & w & Hm & _) & _). congruence.
    + destruct (Hentry _ _ _ H2) as (U & (m & w & Hm & _) & _). congruence.
    + done.
  - intros a k e ne [Ho|(-> & -> & ->)]%attach_owns He.
    + destruct (Hentry _ _ _ Ho) as (U & (m & w & Hm & _) & _).
      destruct (attach_parents _ _ Hm) as (m' & Hm' & Hp).
      assert (ne = m') as -> by (unfold h' in *; congruence).
      rewrite Hp. by eapply Hparent.
    + unfold h' in He. rewrite attach_new in He by done. injection He as <-. by left.
  - intros a [na Ha]. destruct (decide (a = c)) as [->|Hac].
    + destruct (Hchain this) as (fuel & l & Hl); [by eexists|].
      exists (S fuel), (this :: l). cbn [ancestors].
      replace (h' !! c) with (Some nc) by (symmetry; by apply attach_new).
      cbn [parent nc]. by rewrite (ancestors_ext _ _ _ _ _ attach_parents Hl).
    + assert (is_Some (h !! a)) as Hsome.
      { destruct (decide (a = this)) as [->|Hat]; [by eexists|].
        unfold h' in Ha. rewrite attach_other in Ha by done. by eexists. }
      destruct (Hchain _ Hsome) as (fuel & l & Hl).
      exists fuel, l. by apply (ancestors_ext _ _ _ _ _ attach_parents).
Qed.

End attach.

Lemma tree_ok_reset h c T :
  tree_ok h → holds_type h c T → tree_ok (<[c := value_init T]> h).
Proof.
  intros [Hentry Howner Hparent Hchain] Hc.
  assert (Hsub : ∀ a k e, owns (<[c := value_init T]> h) a k e → owns h a k e).
  { intros a k e (m & Hm & Hk). destruct (decide (a = c)) as [->|Hac].
    - rewrite lookup_insert_eq in Hm. by injection Hm as <-.
    - rewrite lookup_insert_ne in Hm by done. by exists m. }
  split.
  - intros a k e Ho%Hsub. destruct (Hentry _ _ _ Ho) as (U & HU & <-).
    exists U. split; [|done]. destruct (decide (e = c)) as [->|Hec].
    + rewrite (holds_type_unique _ _ _ _ HU Hc).
      eexists _, _. by rewrite lookup_insert_eq.
    + destruct HU as (m & w & Hm & Hd). exists m, w. by rewrite lookup_insert_ne.
  - intros a1 k1 a2 k2 e H1%Hsub H2%Hsub. by eapply Howner.
  - intros a k e ne Ho%Hsub He. destruct (decide (e = c)) as [->|Hec].
    + rewrite lookup_insert_eq in He. injection He as <-. by right.
    + rewrite lookup_insert_ne in He by done. by eapply Hparent.
  - assert (Hwalk : ∀ fuel a l, ancestors fuel h a = Some l →
              ∃ l', ancestors fuel (<[c := value_init T]> h) a = Some l').
    { induction fuel as [|fuel IH]; intros a l; simpl; [done|].
      destruct (decide (a = c)) as [->|Hac].
      - rewrite lookup_insert_eq. by eexists.
      - rewrite lookup_insert_ne by done.
        destruct (h !! a) as [m|]; [|done].
        destruct (parent m) as [q|]; [|by eexists].
        destruct (ancestors fuel h q) as [l'|] eqn:E; simpl; [|done].
        intros _. destruct (IH _ _ E) as (l'' & ->). by eexists. }
    intros a Ha. destruct (Hchain a) as (fuel & l & Hl).
    + destruct (decide (a = c)) as [->|Hac].
      * destruct Hc as (m & w & Hm & _). by eexists.
      * by rewrite lookup_insert_ne in Ha.
    + destruct (Hwalk _ _ _ Hl) as (l' & Hl'). by exists fuel, l'.
Qed.

(** A successful [find] returns a [type_settings<T>]. *)
Lemma find_some_holds fuel h a d T :
  find fuel h a T = Ret (Some d) → holds_type h d T.
Proof.
  revert a. induction fuel as [|fuel IH]; intros a; simpl; [done|].
  destruct (h !! a) as [n|]; [|done].
  destruct (children n !! get_type_key T) as [e|].
  - unfold dynamic_cast. destruct (h !! e) as [ne|] eqn:He; [|done].
    destruct (dynamic ne) as [|U w] eqn:Hd; [done|].
    destruct (decide (U = T)) as [->|]; [|done].
    intros [= <-]. by exists ne, w.
  - destruct (parent n) as [q|]; [apply IH|done].
Qed.

(** A [find] that returns null saw no entry at the starting node. *)
Lemma find_none_here fuel h a n T :
  find fuel h a T = Ret None → h !! a = Some n → children n !! get_type_key T = None.
Proof.
  destruct fuel as [|fuel]; simpl; [done|]. intros Hf Ha. rewrite Ha in Hf.
  destruct (children n !! get_type_key T) as [e|]; [|done].
  destruct (dynamic_cast T h e) as [[?|]| | |]; done.
Qed.

Lemma grows_ok h this T h' : tree_ok h → grows h this T h' → tree_ok h'.
Proof.
  intros Hok [->|n v Hn Hk ->]; [done|].
  apply tree_ok_attach; [done..|apply fresh_unused].
Qed.

Lemma resets_ok h this T h' : tree_ok h → resets h this T h' → tree_ok h'.
Proof. intros Hok [c Ho Hc ->]. by apply tree_ok_reset. Qed.

(** A store that only grows keeps every cell it had, with the same
    [parent]. *)
Lemma grows_parents h this T h' x nx :
  grows h this T h' → h !! x = Some nx →
  ∃ nx', h' !! x = Some nx' ∧ parent nx' = parent nx.
Proof.
  intros [->|n v Hn Hk ->] Hx; [by exists nx|].
  eapply attach_parents; [done| |done]. apply fresh_unused.
Qed.

Lemma emplace_new_grows h this n T :
  h !! this = Some n → children n !! get_type_key T = None →
  grows h this T (emplace_new h this T).2.
Proof.
  intros Hn Hk. rewrite (emplace_new_attach _ _ _ _ Hn Hk). by eapply grows_attach.
Qed.

Lemma push_grows fuel h this T : grows h this T (_push fuel h this T).2.
Proof.
  destruct (h !! this) as [n|] eqn:Hn; [|unfold _push; rewrite Hn; by apply grows_same].
  destruct (children n !! get_type_key T) as [e|] eqn:Hk.
  { unfold _push. rewrite Hn, Hk.
    destruct (dynamic_cast T h e) as [[?|]| | |]; by apply grows_same. }
  destruct (parent n) as [q|] eqn:Hq.
  - destruct (find fuel h this T) as [[d|]| | |] eqn:Hf.
    + destruct (find_some_holds _ _ _ _ _ Hf) as (src & w & Hsrc & Hd).
      rewrite (push_copy_attach _ _ _ _ _ _ _ Hn Hk (mk_is_Some _ _ Hq) Hf Hsrc).
      eapply grows_attach; [done..|]. simpl. by rewrite Hd.
    + unfold _push. rewrite Hn, Hk. unfold has_parent. rewrite Hq, Hf.
      by apply (emplace_new_grows _ _ n).
    + unfold _push. rewrite Hn, Hk. unfold has_parent. rewrite Hq, Hf. by apply grows_same.
    + unfold _push. rewrite Hn, Hk. unfold has_parent. rewrite Hq, Hf. by apply grows_same.
    + unfold _push. rewrite Hn, Hk. unfold has_parent. rewrite Hq, Hf. by apply grows_same.
  - unfold _push. rewrite Hn, Hk. unfold has_parent. rewrite Hq.
    by apply (emplace_new_grows _ _ n).
Qed.

Lemma get_grows ai fuel h this T : grows h this T (_get ai fuel h this T).2.
Proof.
  unfold _get. destruct (find fuel h this T) as [[d|]| | |] eqn:Hf; try by apply grows_same.
  destruct (h !! this) as [n|] eqn:Hn; [|by apply grows_same].
  destruct (is_root n && ai); [|by apply grows_same].
  apply (emplace_new_grows _ _ n); [done|]. by eapply find_none_here.
Qed.

Lemma push_default_shape h this T :
  grows h this T (push_default h this T).2 ∨ resets h this T (push_default h this T).2.
Proof.
  unfold push_default. destruct (h !! this) as [n|] eqn:Hn; [|left; by apply grows_same].
  destruct (children n !! get_type_key T) as [e|] eqn:Hk.
  - unfold dynamic_cast. destruct (h !! e) as [ne|] eqn:He; [|left; by apply grows_same].
    destruct (dynamic ne) as [|U w] eqn:Hd; [left; by apply grows_same|].
    destruct (decide (U = T)) as [->|]; [|left; by apply grows_same].
    right. eapply resets_entry; [by exists n|by exists ne, w|done].
  - left. by apply (emplace_new_grows _ _ n).
Qed.

(** Every store reached from a fresh root by the mutating operations is
    well shaped. *)
Lemma push_tree_ok fuel h this T : tree_ok h → tree_ok (_push fuel h this T).2.
Proof. intros Hok. eapply grows_ok; [done|apply push_grows]. Qed.

Lemma get_tree_ok ai fuel h this T : tree_ok h → tree_ok (_get ai fuel h this T).2.
Proof. intros Hok. eapply grows_ok; [done|apply get_grows]. Qed.

Lemma push_default_tree_ok h this T : tree_ok h → tree_ok (push_default h this T).2.
Proof.
  intros Hok. destruct (push_default_shape h this T); [by eapply grows_ok|by eapply resets_ok].
Qed.

Lemma write_value_tree_ok h e w : tree_ok h → tree_ok (write_value e w h).
Proof.
  intros [Hentry Howner Hparent Hchain].
  assert (Hcell : ∀ x nx', write_value e w h !! x = Some nx' →
            ∃ nx, h !! x = Some nx ∧ parent nx' = parent nx ∧ children nx' = children nx).
  { intros x nx'. unfold write_value. destruct (decide (e = x)) as [->|Hne].
    - rewrite lookup_alter_eq. destruct (h !! x) as [nx|]; simpl; [|done].
      intros [= <-]. exists nx. by destruct (dynamic nx).
    - rewrite lookup_alter_ne by done. intros Hx. by exists nx'. }
  assert (Hcell' : ∀ x nx, h !! x = Some nx →
            ∃ nx', write_value e w h !! x = Some nx' ∧ parent nx' = parent nx ∧
                   children nx' = children nx ∧
                   ∀ U u, dynamic nx = TypeSettings U u → ∃ u', dynamic nx' = TypeSettings U u').
  { intros x nx Hx. unfold write_value. destruct (decide (e = x)) as [->|Hne].
    - rewrite lookup_alter_eq, Hx. simpl. eexists. split; [done|].
      destruct (dynamic nx) as [|U0 u0] eqn:Hd; simpl; rewrite ?Hd; eauto.
      repeat split. intros U u [= -> ->]. by eexists.
    - rewrite lookup_alter_ne by done. exists nx. eauto. }
  assert (Hsub : ∀ a k c, owns (write_value e w h) a k c → owns h a k c).
  { intros a k c (m & Hm & Hk). destruct (Hcell _ _ Hm) as (m0 & Hm0 & _ & Hch).
    exists m0. by rewrite <- Hch. }
  split.
  - intros a k c Ho%Hsub. destruct (Hentry _ _ _ Ho) as (U & (m & u & Hm & Hd) & <-).
    exists U. split; [|done]. destruct (Hcell' _ _ Hm) as (m' & Hm' & _ & _ & Hdyn).
    destruct (Hdyn _ _ Hd) as [u' Hu']. by exists m', u'.
  - intros a1 k1 a2 k2 c H1%Hsub H2%Hsub. by eapply Howner.
  - intros a k c nc' Ho%Hsub Hc. destruct (Hcell _ _ Hc) as (nc & Hnc & -> & _).
    by eapply Hparent.
  - intros a [na' Ha]. destruct (Hcell _ _ Ha) as (na & Hna & _).
    destruct (Hchain a) as (fuel & l & Hl); [by eexists|].
    exists fuel, l. eapply ancestors_ext; [|done].
    intros x nx Hx. destruct (Hcell' _ _ Hx) as (nx' & ? & ? & _). by exists nx'.
Qed.

(** [_push] and [_get] leave the [parent] of every existing object alone
    ([find] and [pop] are [const] and return no store at all). *)
Lemma push_keeps_parents fuel h this T x nx :
  h !! x = Some nx →
  ∃ nx', (_push fuel h this T).2 !! x = Some nx' ∧ parent nx' = parent nx.
Proof. intros Hx. eapply grows_parents; [apply push_grows|done]. Qed.

Lemma get_keeps_parents ai fuel h this T x nx :
  h !! x = Some nx →
  ∃ nx', (_get ai fuel h this T).2 !! x = Some nx' ∧ parent nx' = parent nx.
Proof. intros Hx. eapply grows_parents; [apply get_grows|done]. Qed.

End shape.

(** ** The operations, claim by claim *)

Section claims.
Context {val : Type} `{!Payload val}.
Implicit Types (h : gmap positive (scope val)) (a p c d this : positive) (T : cpp_type).
Implicit Types (l : list positive) (n : scope val) (k : obj_type).

Lemma never_pushed_entry_at h T x : never_pushed h T → entry_at h x T = None.
Proof.
  intros Hnp. unfold entry_at. destruct (h !! x) as [n|] eqn:Hx; [|done].
  simpl. by apply (Hnp x n).
Qed.

(** C7 (as amended).  When no node of the store has an entry under the key
    of [T],
    [find<T>()] from any node with a finite parent walk returns null; [find]
    is a [const] member and yields no new store, and the mutable [get<T>()]
    with auto-insert disabled, run on that same store, throws "Type not
    found" and leaves the store as it was. *)
Theorem find_never_inserts fuel h a l T :
  ancestors fuel h a = Some l → never_pushed h T →
  find fuel h a T = Ret None ∧ _get false fuel h a T = (Throw NotFound, h).
Proof.
  intros Hl Hnp.
  assert (find fuel h a T = Ret None) as Hf.
  { eapply find_none; [done|]. apply Forall_forall. intros x _.
    by apply never_pushed_entry_at. }
  split; [done|]. unfold _get. rewrite Hf.
  destruct fuel as [|fuel]; [done|]. simpl in Hl.
  destruct (h !! a) as [n|]; [|done]. by rewrite andb_false_r.
Qed.

(** The [const] overload of [get<T>()] throws on the same miss. *)
Lemma get_const_miss fuel h a l T :
  ancestors fuel h a = Some l →
  Forall (λ x, entry_at h x T = None) (a :: l) →
  _get_const fuel h a T = Throw NotFound.
Proof. intros Hl Hall. unfold _get_const. by rewrite (find_none _ _ _ _ _ Hl Hall). Qed.

(** C8.  On a node that already holds an entry [c] for [T], two successive
    [push<T>()] calls both return [c], and the store after each call is the
    store before it: no entry is added and the value and nested entries of
    [c] are not reset. *)
Theorem push_twice_same_entry fuel h a n c T :
  h !! a = Some n → children n !! get_type_key T = Some c → holds_type h c T →
  ∃ h1 h2,
    _push fuel h a T = (Ret c, h1) ∧ _push fuel h1 a T = (Ret c, h2) ∧
    h1 = h ∧ h2 = h.
Proof.
  intros Ha Hk Hc. exists h, h.
  by rewrite (push_reuse _ _ _ _ _ _ Ha Hk Hc).
Qed.

(** Whatever the first [push<T>()] did, a second one returns the same entry
    and changes nothing. *)
Lemma push_idempotent fuel h a c h' T :
  _push fuel h a T = (Ret c, h') → _push fuel h' a T = (Ret c, h').
Proof.
  intros Hpush.
  destruct (h !! a) as [n|] eqn:Ha; [|unfold _push in Hpush; by rewrite Ha in Hpush].
  destruct (children n !! get_type_key T) as [e|] eqn:Hk.
  - unfold _push, dynamic_cast in Hpush. rewrite Ha, Hk in Hpush.
    destruct (h !! e) as [ne|] eqn:He; [|done].
    destruct (dynamic ne) as [|U w] eqn:Hd; [done|].
    destruct (decide (U = T)) as [->|]; [|done].
    injection Hpush as <- <-. eapply push_reuse; [done..|]. by exists ne, w.
  - assert (∃ nc v, h' = attach h a n (get_type_key T) c nc ∧ a ≠ c ∧
                    dynamic nc = TypeSettings T v) as (nc & v & -> & Hne & Hdyn).
    { pose proof (fresh_ne _ _ _ Ha) as Hne.
      destruct (parent n) as [q|] eqn:Hq.
      - destruct (find fuel h a T) as [[d|]| | |] eqn:Hf;
          try (unfold _push, has_parent in Hpush; rewrite Ha, Hk, Hq, Hf in Hpush; done).
        + destruct (find_some_holds _ _ _ _ _ Hf) as (src & w & Hsrc & Hd).
          rewrite (push_copy_attach _ _ _ _ _ _ _ Ha Hk (mk_is_Some _ _ Hq) Hf Hsrc)
            in Hpush.
          injection Hpush as <- <-. by eexists _, w.
        + unfold _push, has_parent in Hpush. rewrite Ha, Hk, Hq, Hf in Hpush.
          rewrite (emplace_new_attach _ _ _ _ Ha Hk) in Hpush.
          injection Hpush as <- <-. by eexists _, _.
      - unfold _push, has_parent in Hpush. rewrite Ha, Hk, Hq in Hpush.
        rewrite (emplace_new_attach _ _ _ _ Ha Hk) in Hpush.
        injection Hpush as <- <-. by eexists _, _. }
    eapply push_reuse.
    + apply attach_this.
    + simpl. apply lookup_insert_eq.
    + exists nc, v. by rewrite attach_new.
Qed.

(** C6.  On a store holding only a freshly constructed root, the mutable
    [get<T>()] with auto-insert enabled returns a new object that is the
    root's only entry, stored under the key of [T], default-valued, with the
    root as parent and no entries of its own; with auto-insert disabled the
    call throws "Type not found" and the store is unchanged. *)
Theorem get_on_fresh_root fuel T :
  (∃ c h',
     _get true (S fuel) (root_store (val := val)) root T = (Ret c, h') ∧
     h' !! c = Some {| dynamic := TypeSettings T (default_construct T);
                       parent := Some root; children := ∅ |} ∧
     h' !! root = Some {| dynamic := PlainScope; parent := None;
                          children := {[ get_type_key T := c ]} |}) ∧
  _get false (S fuel) (root_store (val := val)) root T = (Throw NotFound, root_store).
Proof.
  assert (root_store (val := val) !! root = Some new_scope) as Hroot
    by apply lookup_singleton_eq.
  assert (find (S fuel) (root_store (val := val)) root T = Ret None) as Hf.
  { simpl. by rewrite Hroot. }
  split.
  - unfold _get. rewrite Hf, Hroot. simpl.
    rewrite (emplace_new_attach _ _ _ _ Hroot) by done.
    eexists _, _. split; [done|]. split.
    + rewrite attach_new; [done|]. by eapply fresh_ne.
    + by rewrite attach_this.
  - unfold _get. by rewrite Hf, Hroot.
Qed.

(** C3 (as amended).  When no node on the walk from [a] up to the root has
    an entry under the key of [T], the mutable [get<T>()] succeeds exactly
    when [a] itself has a null [parent] and auto-insert is enabled: it then
    attaches a fresh default entry to [a] and returns it.  From a node that
    has a parent, or with auto-insert disabled, it throws "Type not found"
    and the store is unchanged. *)
Theorem get_miss fuel ai h a n l T :
  h !! a = Some n → ancestors fuel h a = Some l →
  Forall (λ x, entry_at h x T = None) (a :: l) →
  _get ai fuel h a T =
    if is_root n && ai
    then (Ret (fresh (dom h)),
          attach h a n (get_type_key T) (fresh (dom h))
            {| dynamic := TypeSettings T (default_construct T);
               parent := Some a; children := ∅ |})
    else (Throw NotFound, h).
Proof.
  intros Ha Hl Hall. unfold _get.
  rewrite (find_none _ _ _ _ _ Hl Hall), Ha.
  destruct (is_root n && ai); [|done].
  apply emplace_new_attach; [done|].
  apply Forall_cons in Hall as [Hhere _]. unfold entry_at in Hhere.
  by rewrite Ha in Hhere.
Qed.

(** C4 (as amended).  Let [a] lack an entry for [T], and let [d], a
    [type_settings<T>] with value [v1], be the entry of the nearest ancestor
    that has one.  Then [push<T>()] on [a] returns a fresh object [c] with
    value [v1], parent [a] and no entries, stored as the entry of [a] for
    [T].  The only existing object that changes is [a], which gains that
    entry; so [d] is unchanged unless [a] is [d] itself, and so is every
    other object.  Writing the value of [c] afterwards changes no other
    object. *)
Theorem push_inherits fuel h a n l1 q l2 d v1 T :
  h !! a = Some n → children n !! get_type_key T = None →
  ancestors fuel h a = Some (l1 ++ q :: l2) →
  Forall (λ x, entry_at h x T = None) l1 →
  entry_at h q T = Some d → holds_value h d T v1 →
  ∃ c h',
    _push fuel h a T = (Ret c, h') ∧ h !! c = None ∧
    h' !! c = Some {| dynamic := TypeSettings T v1; parent := Some a; children := ∅ |} ∧
    h' !! a = Some (with_children (<[get_type_key T := c]> (children n)) n) ∧
    (∀ x, x ≠ a → x ≠ c → h' !! x = h !! x) ∧
    (d ≠ a → h' !! d = h !! d) ∧
    (∀ v2 x, x ≠ c → write_value c v2 h' !! x = h' !! x).
Proof.
  intros Ha Hk Hl Hall Hq (src & Hsrc & Hdyn).
  assert (find fuel h a T = Ret (Some d)) as Hf.
  { eapply find_nearest; [done| |done|by exists src, v1].
    apply Forall_cons. split; [|done]. unfold entry_at. by rewrite Ha. }
  assert (is_Some (parent n)) as Hp.
  { destruct fuel as [|fuel]; [done|]. simpl in Hl. rewrite Ha in Hl.
    destruct (parent n); [done|]. by destruct l1. }
  pose proof (fresh_ne _ _ _ Ha) as Hne.
  eexists (fresh (dom h)), _. split; [by eapply push_copy_attach|].
  rewrite Hdyn. split; [apply fresh_unused|].
  split; [by rewrite attach_new|]. split; [by rewrite attach_this|].
  split; [intros x ??; by rewrite attach_other|].
  split.
  - intros Hda. rewrite attach_other; [done..|]. by eapply fresh_ne.
  - intros v2 x Hx. unfold write_value. by rewrite lookup_alter_ne.
Qed.

(** C10.  From a node with [length l] ancestors, [pop(count)] with
    [count = 0] or [count > length l + 1] neither throws nor returns: it
    runs into undefined behaviour, and unless the walk is longer than [2^31]
    nodes that is the call through the null [parent] of the root. *)
Theorem pop_out_of_range fuel h a l count :
  ancestors fuel h a = Some l →
  count = 0 ∨ Z.of_nat (length l) + 1 < count →
  (∃ u, pop fuel h a count = Undefined u) ∧
  (Z.of_nat (length l) ≤ 2 ^ 31 → pop fuel h a count = Undefined NullDeref).
Proof.
  intros Hl Hc. split.
  - eapply pop_undefined; [done|lia].
  - intros Hlen. eapply pop_null_deref; [done|lia|]. unfold INT_MIN. lia.
Qed.

(** "No parent to pop to" is thrown for one count only: one more than the
    number of ancestors. *)
Lemma pop_no_parent_iff fuel h a l count :
  ancestors fuel h a = Some l →
  pop fuel h a count = Throw NoParent ↔ count = Z.of_nat (length l) + 1.
Proof.
  intros Hl. split; [|by apply pop_no_parent].
  intros Hpop.
  destruct (decide (count ≤ 0 ∨ Z.of_nat (length l) + 1 < count)) as [Hout|Hin].
  { destruct (pop_undefined _ _ _ _ _ Hl Hout) as [u Hu]. congruence. }
  destruct (decide (count = Z.of_nat (length l) + 1)) as [|Hne]; [done|].
  destruct (lookup_lt_is_Some_2 l (Z.to_nat (count - 1))) as [p Hp]; [lia|].
  rewrite (pop_ancestor _ _ _ _ _ p count Hl Hp) in Hpop by lia. done.
Qed.

End claims.

(** ** The operations on concrete stores *)

(** The entry reset by [push_default] ends up with a null [parent]. *)
Lemma push_default_parent_null {val} `{!Payload val} (h : gmap positive (scope val)) a n c T :
  h !! a = Some n → children n !! get_type_key T = Some c → holds_type h c T →
  parent <$> (push_default h a T).2 !! c = Some None.
Proof.
  intros Ha Hk Hc. rewrite (push_default_reset _ _ _ _ _ Ha Hk Hc). simpl.
  by rewrite lookup_insert_eq.
Qed.

(** C1, the failing run.  [root.push<int>()] returns object 2 with the root
    as parent, and [pop()] on it returns the root.  After
    [root.push_default<int>()] the same object is still the root's entry but
    its [parent] is null, and [pop()] on it throws "No parent to pop to". *)
Theorem push_default_nulls_parent :
  _push 2 root_store root t_int = (Ret 2%positive, store_child) ∧
  parent <$> store_child !! 2%positive = Some (Some root) ∧
  pop 2 store_child 2 1 = Ret root ∧
  ∃ h', push_default store_child root t_int = (Ret 2%positive, h') ∧
        entry_at h' root t_int = Some 2%positive ∧
        parent <$> h' !! 2%positive = Some None ∧
        pop 2 h' 2 1 = Throw NoParent.
Proof.
  split; [by vm_compute|]. split; [by vm_compute|]. split; [by vm_compute|].
  exists (push_default store_child root t_int).2.
  split; [by vm_compute|]. split; [by vm_compute|]. split; by vm_compute.
Qed.

(** C2, the failing run.  From object 3, two levels below the root,
    [pop(2)] returns the root and [pop(3)] throws "No parent to pop to", as
    does [pop(1)] on the root; but [pop(4)] from object 3 and [pop(2)] on the
    root call [pop] through the root's null [parent] instead of throwing. *)
Theorem pop_past_root_undefined :
  pop 3 store_two_below 3 2 = Ret root ∧
  pop 3 store_two_below 3 3 = Throw NoParent ∧
  pop 3 store_two_below root 1 = Throw NoParent ∧
  pop 3 store_two_below 3 4 = Undefined NullDeref ∧
  pop 3 store_two_below root 2 = Undefined NullDeref.
Proof. repeat split; by vm_compute. Qed.

(** C3, counterexample.  Object 2 is a child of the root and neither has an
    entry for [double]; with auto-insert enabled, [get<double>()] on object 2
    throws "Type not found" and nothing is inserted. *)
Lemma get_from_child_throws :
  ancestors 2 store_child 2 = Some [root] ∧
  Forall (λ x, entry_at store_child x t_double = None) [2%positive; root] ∧
  _get true 2 store_child 2 t_double = (Throw NotFound, store_child).
Proof.
  split; [by vm_compute|]. split; [|by vm_compute].
  repeat constructor; by vm_compute.
Qed.

(** C4, counterexample.  Object 2 is the root's entry for [int] and has no
    entry for [int] itself, so the nearest ancestor entry for [int] is
    object 2.  [push<int>()] on object 2 gives it a nested entry: the
    ancestor's entry is not left unchanged. *)
Lemma push_changes_donor :
  entry_at store_child 2 t_int = None ∧
  ancestors 2 store_child 2 = Some [root] ∧
  entry_at store_child root t_int = Some 2%positive ∧
  holds_value store_child 2 t_int 0 ∧
  _push 2 store_child 2 t_int = (Ret 3%positive, store_int_int) ∧
  children <$> store_child !! 2%positive = Some ∅ ∧
  children <$> store_int_int !! 2%positive = Some {[ get_type_key t_int := 3%positive ]}.
Proof.
  split; [by vm_compute|]. split; [by vm_compute|]. split; [by vm_compute|].
  split; [eexists; split; by vm_compute|].
  split; [by vm_compute|]. split; by vm_compute.
Qed.

(** *** Instances of the general statements *)

Lemma find_never_inserts_witness :
  (ancestors 2 store_child 2 = Some [root] ∧ never_pushed store_child t_double) ∧
  find 2 store_child 2 t_double = Ret None ∧
  _get false 2 store_child 2 t_double = (Throw NotFound, store_child).
Proof.
  assert (ancestors 2 store_child 2 = Some [root]) as H1 by (by vm_compute).
  assert (never_pushed store_child t_double) as H2.
  { unfold never_pushed. apply (bool_decide_unpack _). by vm_compute. }
  split; [done|]. exact (find_never_inserts 2 store_child 2 [root] t_double H1 H2).
Defined.

Lemma push_twice_same_entry_witness :
  ∃ n,
    (store_child !! root = Some n ∧ children n !! get_type_key t_int = Some 2%positive ∧
     holds_type store_child 2 t_int) ∧
    ∃ h1 h2,
      _push 2 store_child root t_int = (Ret 2%positive, h1) ∧
      _push 2 h1 root t_int = (Ret 2%positive, h2) ∧
      h1 = store_child ∧ h2 = store_child.
Proof.
  destruct (store_child !! root) as [n|] eqn:Hn; [|by vm_compute in Hn].
  exists n.
  assert (children n !! get_type_key t_int = Some 2%positive) as Hk.
  { vm_compute in Hn. injection Hn as <-. by vm_compute. }
  assert (holds_type store_child 2 t_int) as Hc.
  { eexists _, _. split; by vm_compute. }
  split; [done|].
  exact (push_twice_same_entry 2 store_child root n 2 t_int Hn Hk Hc).
Defined.

Lemma get_miss_witness :
  ∃ n,
    (store_child !! 2%positive = Some n ∧ ancestors 2 store_child 2 = Some [root] ∧
     Forall (λ x, entry_at store_child x t_double = None) [2%positive; root]) ∧
    _get true 2 store_child 2 t_double = (Throw NotFound, store_child).
Proof.
  destruct (store_child !! 2%positive) as [n|] eqn:Hn; [|by vm_compute in Hn].
  exists n.
  assert (ancestors 2 store_child 2 = Some [root]) as Hl by (by vm_compute).
  assert (Forall (λ x, entry_at store_child x t_double = None) [2%positive; root]) as Hall.
  { repeat constructor; by vm_compute. }
  split; [done|].
  rewrite (get_miss 2 true store_child 2 n [root] t_double Hn Hl Hall).
  vm_compute in Hn. injection Hn as <-. done.
Defined.

Lemma push_inherits_witness :
  ∃ n,
    (store_two_below !! 3%positive = Some n ∧
     children n !! get_type_key t_int = None ∧
     ancestors 3 store_two_below 3 = Some ([2%positive] ++ root :: []) ∧
     Forall (λ x, entry_at store_two_below x t_int = None) [2%positive] ∧
     entry_at store_two_below root t_int = Some 2%positive ∧
     holds_value store_two_below 2 t_int 0) ∧
    ∃ c h',
      _push 3 store_two_below 3 t_int = (Ret c, h') ∧ store_two_below !! c = None ∧
      h' !! c = Some {| dynamic := TypeSettings t_int 0; parent := Some 3%positive;
                        children := ∅ |} ∧
      h' !! 3%positive =
        Some (with_children (<[get_type_key t_int := c]> (children n)) n) ∧
      (∀ x, x ≠ 3%positive → x ≠ c → h' !! x = store_two_below !! x) ∧
      (2%positive ≠ 3%positive → h' !! 2%positive = store_two_below !! 2%positive) ∧
      (∀ v2 x, x ≠ c → write_value c v2 h' !! x = h' !! x).
Proof.
  destruct (store_two_below !! 3%positive) as [n|] eqn:Hn; [|by vm_compute in Hn].
  exists n.
  assert (children n !! get_type_key t_int = None) as Hk.
  { vm_compute in Hn. injection Hn as <-. by vm_compute. }
  assert (ancestors 3 store_two_below 3 = Some ([2%positive] ++ root :: [])) as Hl
    by (by vm_compute).
  assert (Forall (λ x, entry_at store_two_below x t_int = None) [2%positive]) as Hall.
  { repeat constructor; by vm_compute. }
  assert (entry_at store_two_below root t_int = Some 2%positive) as Hq by (by vm_compute).
  assert (holds_value store_two_below 2 t_int 0) as Hd.
  { eexists. split; by vm_compute. }
  split; [done|].
  exact (push_inherits 3 store_two_below 3 n [2%positive] root [] 2 0 t_int
           Hn Hk Hl Hall Hq Hd).
Defined.

Lemma pop_out_of_range_witness :
  (ancestors 1 (root_store (val := Z)) root = Some [] ∧
   (0 = 0 ∨ Z.of_nat (length (@nil positive)) + 1 < 0)) ∧
  (∃ u, pop 1 (root_store (val := Z)) root 0 = Undefined u) ∧
  (Z.of_nat (length (@nil positive)) ≤ 2 ^ 31 →
   pop 1 (root_store (val := Z)) root 0 = Undefined NullDeref).
Proof.
  assert (ancestors 1 (root_store (val := Z)) root = Some []) as Hl by (by vm_compute).
  assert (0 = 0 ∨ Z.of_nat (length (@nil positive)) + 1 < 0) as Hc by (by left).
  split; [done|].
  exact (pop_out_of_range 1 root_store root [] 0 Hl Hc).
Defined.

(** ** More about the walks: [pop] and [find] in general *)

Section more_walks.
Context {val : Type} `{!Payload val}.
Implicit Types (h : gmap positive (scope val)) (a p c d q this : positive) (T U : cpp_type).
Implicit Types (l : list positive) (n : scope val) (k : obj_type).

(** [pop] only returns for a positive count. *)
Lemma pop_ret_pos fuel h a count p : pop fuel h a count = Ret p → 1 ≤ count.
Proof.
  revert a count. induction fuel as [|fuel IH]; intros a count; cbn [pop]; [done|].
  destruct (h !! a) as [n|]; [|done]. unfold has_parent.
  destruct (parent n) as [q|]; simpl.
  - destruct (count =? 1) eqn:E; [apply Z.eqb_eq in E; lia|].
    destruct (count - 1 <? INT_MIN); [done|]. intros Hp%IH. lia.
  - by destruct (count =? 1).
Qed.

Lemma pop_fuel_mono fuel fuel' h a count p :
  (fuel ≤ fuel')%nat → pop fuel h a count = Ret p → pop fuel' h a count = Ret p.
Proof.
  revert fuel' a count. induction fuel as [|fuel IH]; intros fuel' a count Hle; [done|].
  destruct fuel' as [|fuel']; [lia|]. cbn [pop].
  destruct (h !! a) as [n|]; [|done]. unfold has_parent.
  destruct (parent n) as [q|]; simpl; [|done].
  destruct (count =? 1); [done|].
  destruct (count - 1 <? INT_MIN); [done|]. apply IH. lia.
Qed.

Lemma pop_compose_ret fuel1 fuel2 h a i p j q :
  pop fuel1 h a i = Ret p → pop fuel2 h p j = Ret q →
  pop (fuel1 + fuel2) h a (i + j) = Ret q.
Proof.
  intros Hi Hj. pose proof (pop_ret_pos _ _ _ _ _ Hj) as Hjpos.
  revert a i Hi. induction fuel1 as [|fuel1 IH]; intros a i; [done|].
  intros Hi. pose proof (pop_ret_pos _ _ _ _ _ Hi) as Hipos. revert Hi.
  cbn [pop Nat.add]. destruct (h !! a) as [n|]; [|done]. unfold has_parent.
  destruct (parent n) as [r|]; simpl; [|by destruct (i =? 1)].
  replace (i + j =? 1) with false by (symmetry; apply Z.eqb_neq; lia).
  replace (i + j - 1 <? INT_MIN) with false
    by (symmetry; apply Z.ltb_ge; unfold INT_MIN; lia).
  destruct (i =? 1) eqn:E.
  - apply Z.eqb_eq in E. subst i. intros [= ->].
    replace (1 + j - 1) with j by lia.
    eapply pop_fuel_mono; [|done]. lia.
  - destruct (i - 1 <? INT_MIN); [done|]. intros Hr.
    replace (i + j - 1) with (i - 1 + j) by lia. by apply IH.
Qed.

Lemma ancestors_enough_find fuel h a l T :
  ancestors fuel h a = Some l → find fuel h a T ≠ OutOfFuel.
Proof.
  revert a l. induction fuel as [|fuel IH]; intros a l; simpl; [done|].
  destruct (h !! a) as [n|]; [|done].
  destruct (children n !! get_type_key T) as [e|].
  - intros _. unfold dynamic_cast. destruct (h !! e) as [ne|]; [|done].
    destruct (dynamic ne) as [|U w]; [done|]. by destruct (decide (U = T)).
  - destruct (parent n) as [r|]; [|done].
    destruct (ancestors fuel h r) as [l'|] eqn:E; simpl; [|done].
    intros _. by eapply IH.
Qed.

Lemma ancestors_enough_pop fuel h a l count :
  ancestors fuel h a = Some l → pop fuel h a count ≠ OutOfFuel.
Proof.
  revert a l count. induction fuel as [|fuel IH]; intros a l count; simpl ancestors; [done|].
  cbn [pop]. destruct (h !! a) as [n|]; [|done]. unfold has_parent.
  destruct (parent n) as [r|]; simpl; [|by destruct (count =? 1)].
  destruct (ancestors fuel h r) as [l'|] eqn:E; simpl; [|done].
  intros _. destruct (count =? 1); [done|].
  destruct (count - 1 <? INT_MIN); [done|]. by eapply IH.
Qed.

(** [find] is decided by the first node of the walk that has an entry under
    the key: the outcome is that of the [dynamic_cast] on that entry. *)
Lemma find_first_entry fuel h a l l1 q l2 d T :
  ancestors fuel h a = Some l → a :: l = l1 ++ q :: l2 →
  Forall (λ x, entry_at h x T = None) l1 → entry_at h q T = Some d →
  find fuel h a T =
    match dynamic_cast T h d with
    | Ret (Some found) => Ret (Some found)
    | Ret None => Throw TypeMismatch
    | other => other
    end.
Proof.
  revert a l l1. induction fuel as [|fuel IH]; intros a l l1; simpl; [done|].
  intros Hl Hsplit Hall Hq. destruct l1 as [|x l1]; simpl in Hsplit.
  - injection Hsplit as <- ->. unfold entry_at in Hq.
    destruct (h !! a) as [n|]; simpl in Hq; [|done]. by rewrite Hq.
  - injection Hsplit as <- ->. apply Forall_cons in Hall as [Ha Hall].
    unfold entry_at in Ha. destruct (h !! a) as [n|]; simpl in Ha; [|done].
    rewrite Ha. destruct (parent n) as [r|]; [|by destruct l1].
    destruct (ancestors fuel h r) as [l'|] eqn:E; simpl in Hl; [|done].
    injection Hl as Hl. by apply (IH r l' l1).
Qed.

(** Conversely, a walk on which [find] does not end with null has a first
    node with an entry under the key. *)
Lemma find_walk_split fuel h a l T :
  ancestors fuel h a = Some l → find fuel h a T ≠ Ret None →
  ∃ l1 q l2 d, a :: l = l1 ++ q :: l2 ∧
    Forall (λ x, entry_at h x T = None) l1 ∧ entry_at h q T = Some d.
Proof.
  revert a l. induction fuel as [|fuel IH]; intros a l; simpl; [done|].
  destruct (h !! a) as [n|] eqn:Ha; [|done].
  destruct (children n !! get_type_key T) as [e|] eqn:Hk.
  - intros _ _. exists [], a, l, e. split; [done|]. split; [done|].
    unfold entry_at. by rewrite Ha.
  - destruct (parent n) as [r|]; [|done].
    destruct (ancestors fuel h r) as [l'|] eqn:E; simpl; [|done].
    intros [= <-] Hf. destruct (IH _ _ E Hf) as (l1 & q & l2 & d & Hs & Hall & Hq).
    exists (a :: l1), q, l2, d. split; [by rewrite Hs|]. split; [|done].
    apply Forall_cons. split; [|done]. unfold entry_at. by rewrite Ha.
Qed.

Lemma dynamic_cast_holds h d T :
  holds_type h d T → dynamic_cast T h d = Ret (Some d).
Proof.
  intros (n & v & Hn & Hd). unfold dynamic_cast. rewrite Hn, Hd. by rewrite decide_True.
Qed.

Lemma dynamic_cast_other h d T U :
  holds_type h d U → U ≠ T → dynamic_cast T h d = Ret None.
Proof.
  intros (n & v & Hn & Hd) Hne. unfold dynamic_cast. rewrite Hn, Hd.
  by rewrite decide_False.
Qed.

Lemma dynamic_cast_ret h d T e :
  dynamic_cast T h d = Ret (Some e) → e = d ∧ holds_type h d T.
Proof.
  unfold dynamic_cast. destruct (h !! d) as [n|] eqn:Hn; [|done].
  destruct (dynamic n) as [|U w] eqn:Hd; [done|].
  destruct (decide (U = T)) as [->|]; [|done].
  intros [= <-]. split; [done|]. by exists n, w.
Qed.

End more_walks.

(** ** More about single steps: what a successful call leaves behind *)

Section more_steps.
Context {val : Type} `{!Payload val}.
Implicit Types (h : gmap positive (scope val)) (a p c d q this : positive) (T U : cpp_type).
Implicit Types (l : list positive) (n : scope val) (k : obj_type).

Lemma keeps_refl h : keeps h h.
Proof. intros x nx Hx. by exists nx. Qed.

Lemma keeps_trans h1 h2 h3 : keeps h1 h2 → keeps h2 h3 → keeps h1 h3.
Proof.
  intros H12 H23 x nx Hx.
  destruct (H12 _ _ Hx) as (nx2 & Hx2 & Hd2 & Hp2 & Hc2).
  destruct (H23 _ _ Hx2) as (nx3 & Hx3 & Hd3 & Hp3 & Hc3).
  exists nx3. split; [done|]. split; [congruence|]. split; [congruence|].
  by etrans.
Qed.

Lemma grows_keeps h this T h' : grows h this T h' → keeps h h'.
Proof.
  intros [->|n v Hn Hk ->]; [apply keeps_refl|].
  intros x nx Hx. pose proof (fresh_ne _ _ _ Hx) as Hxc.
  destruct (decide (x = this)) as [->|Hxt].
  - rewrite attach_this. assert (nx = n) as -> by congruence.
    eexists. split; [done|]. simpl. do 2 (split; [done|]).
    by apply insert_subseteq.
  - rewrite attach_other by done. by exists nx.
Qed.

Lemma keeps_owns h h' a k c : keeps h h' → owns h a k c → owns h' a k c.
Proof.
  intros Hkeep (n & Hn & Hk). destruct (Hkeep _ _ Hn) as (n' & Hn' & _ & _ & Hsub).
  exists n'. split; [done|]. by eapply lookup_weaken.
Qed.

Lemma keeps_holds_type h h' e T : keeps h h' → holds_type h e T → holds_type h' e T.
Proof.
  intros Hkeep (n & v & Hn & Hd). destruct (Hkeep _ _ Hn) as (n' & Hn' & Hd' & _).
  exists n', v. split; [done|]. congruence.
Qed.

(** The entry a successful [_push] returns is, in the resulting store, the
    entry of [this] for [T]. *)
Lemma push_ret_owns fuel h a c h' T :
  _push fuel h a T = (Ret c, h') →
  owns h' a (get_type_key T) c ∧ holds_type h' c T.
Proof.
  intros Hpush.
  destruct (h !! a) as [n|] eqn:Ha; [|unfold _push in Hpush; by rewrite Ha in Hpush].
  destruct (children n !! get_type_key T) as [e|] eqn:Hk.
  - unfold _push in Hpush. rewrite Ha, Hk in Hpush.
    destruct (dynamic_cast T h e) as [[f|]| | |] eqn:Hdc; try done.
    injection Hpush as <- <-. apply dynamic_cast_ret in Hdc as [-> Hc].
    split; [by exists n|done].
  - pose proof (push_grows fuel h a T) as Hg. rewrite Hpush in Hg. simpl in Hg.
    pose proof (fresh_ne _ _ _ Ha) as Hne.
    assert (c = fresh (dom h) ∧ ∃ v, h' = attach h a n (get_type_key T) c
              {| dynamic := TypeSettings T v; parent := Some a; children := ∅ |})
      as [-> [v ->]].
    { destruct (parent n) as [r|] eqn:Hr.
      - destruct (find fuel h a T) as [[d|]| | |] eqn:Hf;
          try (unfold _push, has_parent in Hpush; rewrite Ha, Hk, Hr, Hf in Hpush; done).
        + destruct (find_some_holds _ _ _ _ _ Hf) as (src & w & Hsrc & Hd).
          rewrite (push_copy_attach _ _ _ _ _ _ _ Ha Hk (mk_is_Some _ _ Hr) Hf Hsrc)
            in Hpush.
          injection Hpush as <- <-. split; [done|]. exists w. by rewrite Hd.
        + unfold _push, has_parent in Hpush. rewrite Ha, Hk, Hr, Hf in Hpush.
          rewrite (emplace_new_attach _ _ _ _ Ha Hk) in Hpush.
          injection Hpush as <- <-. split; [done|]. by eexists.
      - unfold _push, has_parent in Hpush. rewrite Ha, Hk, Hr in Hpush.
        rewrite (emplace_new_attach _ _ _ _ Ha Hk) in Hpush.
        injection Hpush as <- <-. split; [done|]. by eexists. }
    split.
    + eexists. split; [apply attach_this|]. simpl. apply lookup_insert_eq.
    + eexists _, v. by rewrite attach_new.
Qed.

(** When the node had no entry under the key, the returned object is new,
    has [this] as parent and no entries. *)
Lemma push_new_cell fuel h a n c h' T :
  h !! a = Some n → children n !! get_type_key T = None →
  _push fuel h a T = (Ret c, h') →
  h !! c = None ∧ ∃ nc, h' !! c = Some nc ∧ parent nc = Some a ∧ children nc = ∅.
Proof.
  intros Ha Hk Hpush. pose proof (fresh_ne _ _ _ Ha) as Hne.
  destruct (parent n) as [r|] eqn:Hr.
  - destruct (find fuel h a T) as [[d|]| | |] eqn:Hf;
      try (unfold _push, has_parent in Hpush; rewrite Ha, Hk, Hr, Hf in Hpush; done).
    + destruct (find_some_holds _ _ _ _ _ Hf) as (src & w & Hsrc & Hd).
      rewrite (push_copy_attach _ _ _ _ _ _ _ Ha Hk (mk_is_Some _ _ Hr) Hf Hsrc) in Hpush.
      injection Hpush as <- <-. split; [apply fresh_unused|].
      eexists. by rewrite attach_new.
    + unfold _push, has_parent in Hpush. rewrite Ha, Hk, Hr, Hf in Hpush.
      rewrite (emplace_new_attach _ _ _ _ Ha Hk) in Hpush.
      injection Hpush as <- <-. split; [apply fresh_unused|].
      eexists. by rewrite attach_new.
  - unfold _push, has_parent in Hpush. rewrite Ha, Hk, Hr in Hpush.
    rewrite (emplace_new_attach _ _ _ _ Ha Hk) in Hpush.
    injection Hpush as <- <-. split; [apply fresh_unused|].
    eexists. by rewrite attach_new.
Qed.

Lemma push_keeps fuel h a T : keeps h (_push fuel h a T).2.
Proof. eapply grows_keeps, push_grows. Qed.

Lemma get_keeps ai fuel h a T : keeps h (_get ai fuel h a T).2.
Proof. eapply grows_keeps, get_grows. Qed.

Lemma push_chain_keeps fuel h a T Us : keeps h (push_chain fuel h a T Us).2.
Proof.
  revert h a T. induction Us as [|U Rest IH]; intros h a T; simpl.
  - apply push_keeps.
  - pose proof (push_keeps fuel h a T) as Hk.
    destruct (_push fuel h a T) as [[next| | |] h1]; simpl in *; try done.
    eapply keeps_trans; [done|apply IH].
Qed.

Lemma get_chain_keeps ai fuel h a T Us : keeps h (get_chain ai fuel h a T Us).2.
Proof.
  revert h a T. induction Us as [|U Rest IH]; intros h a T; simpl.
  - apply get_keeps.
  - pose proof (get_keeps ai fuel h a T) as Hk.
    destruct (_get ai fuel h a T) as [[next| | |] h1]; simpl in *; try done.
    eapply keeps_trans; [done|apply IH].
Qed.

Lemma push_chain_tree_ok fuel h a T Us :
  tree_ok h → tree_ok (push_chain fuel h a T Us).2.
Proof.
  revert h a T. induction Us as [|U Rest IH]; intros h a T Hok; simpl.
  - by apply push_tree_ok.
  - pose proof (push_tree_ok fuel h a T Hok) as Hk.
    destruct (_push fuel h a T) as [[next| | |] h1]; simpl in *; try done.
    by apply IH.
Qed.

Lemma get_chain_tree_ok ai fuel h a T Us :
  tree_ok h → tree_ok (get_chain ai fuel h a T Us).2.
Proof.
  revert h a T. induction Us as [|U Rest IH]; intros h a T Hok; simpl.
  - by apply get_tree_ok.
  - pose proof (get_tree_ok ai fuel h a T Hok) as Hk.
    destruct (_get ai fuel h a T) as [[next| | |] h1]; simpl in *; try done.
    by apply IH.
Qed.

(** A [find] that returns at all has fuel left for its first step. *)
Lemma find_ret_fuel fuel h a T r : find fuel h a T = Ret r → ∃ fuel', fuel = S fuel'.
Proof. destruct fuel; [done|]. by eexists. Qed.

End more_steps.

(** ** Further properties of the operations *)

Section extras.
Context {val : Type} `{!Payload val}.
Implicit Types (h : gmap positive (scope val)) (a p c d q this : positive) (T U : cpp_type).
Implicit Types (l : list positive) (n : scope val) (k : obj_type).

(** X1.  From a node whose ancestors are [l], [pop(k + 1)] returns the
    ancestor at position [k] of the walk ([pop()] the parent, [pop(2)] the
    grandparent, ...). *)
Theorem pop_returns_ancestor fuel h a l i p :
  ancestors fuel h a = Some l → l !! i = Some p →
  pop fuel h a (Z.of_nat i + 1) = Ret p.
Proof. intros Hl Hi. by eapply pop_ancestor. Qed.

(** X2.  From a node with [length l] ancestors, [pop(count)] throws
    "No parent to pop to" for exactly one count: [length l + 1]. *)
Theorem pop_throws_exactly fuel h a l count :
  ancestors fuel h a = Some l →
  pop fuel h a count = Throw NoParent ↔ count = Z.of_nat (length l) + 1.
Proof.
  intros Hl. split; [|by apply pop_no_parent].
  intros Hpop.
  destruct (decide (count ≤ 0 ∨ Z.of_nat (length l) + 1 < count)) as [Hout|Hin].
  { destruct (pop_undefined _ _ _ _ _ Hl Hout) as [u Hu]. congruence. }
  destruct (decide (count = Z.of_nat (length l) + 1)) as [|Hne]; [done|].
  destruct (lookup_lt_is_Some_2 l (Z.to_nat (count - 1))) as [r Hr]; [lia|].
  rewrite (pop_ancestor _ _ _ _ _ r count Hl Hr) in Hpop by lia. done.
Qed.

(** X3.  Popping composes: if [pop(i)] from [a] returns [p] and [pop(j)]
    from [p] returns [q], then [pop(i + j)] from [a] returns [q]. *)
Theorem pop_compose fuel1 fuel2 h a i p j q :
  pop fuel1 h a i = Ret p → pop fuel2 h p j = Ret q →
  pop (fuel1 + fuel2) h a (i + j) = Ret q.
Proof. apply pop_compose_ret. Qed.

(** X4.  On a finite walk, [find<T>()] returns [d] exactly when [d] is a
    [type_settings<T>] that is the entry, under the key of [T], of the first
    node of the walk (the starting node included) that has an entry under
    that key. *)
Theorem find_some_iff fuel h a l d T :
  ancestors fuel h a = Some l →
  find fuel h a T = Ret (Some d) ↔
  ∃ l1 q l2, a :: l = l1 ++ q :: l2 ∧
    Forall (λ x, entry_at h x T = None) l1 ∧
    entry_at h q T = Some d ∧ holds_type h d T.
Proof.
  intros Hl. split.
  - intros Hf.
    destruct (find_walk_split _ _ _ _ T Hl) as (l1 & q & l2 & e & Hs & Hall & Hq).
    { by rewrite Hf. }
    rewrite (find_first_entry _ _ _ _ _ _ _ _ _ Hl Hs Hall Hq) in Hf.
    destruct (dynamic_cast T h e) as [[f|]| | |] eqn:Hdc; try done.
    injection Hf as ->. apply dynamic_cast_ret in Hdc as [-> Hd].
    by exists l1, q, l2.
  - intros (l1 & q & l2 & Hs & Hall & Hq & Hd).
    rewrite (find_first_entry _ _ _ _ _ _ _ _ _ Hl Hs Hall Hq).
    by rewrite (dynamic_cast_holds _ _ _ Hd).
Qed.

Lemma find_null_walk fuel h a l T :
  ancestors fuel h a = Some l → find fuel h a T = Ret None →
  Forall (λ x, entry_at h x T = None) (a :: l).
Proof.
  revert a l. induction fuel as [|fuel IH]; intros a l; simpl; [done|].
  unfold entry_at at 1.
  destruct (h !! a) as [n|] eqn:Ha; [|done].
  destruct (children n !! get_type_key T) as [e|] eqn:Hk.
  - intros _. by destruct (dynamic_cast T h e) as [[?|]| | |].
  - destruct (parent n) as [r|].
    + destruct (ancestors fuel h r) as [l'|] eqn:E; simpl; [|done].
      intros [= <-] Hf. apply Forall_cons. split; [by rewrite Ha|].
      by apply (IH r l').
    + intros [= <-] _. apply Forall_cons. split; [by rewrite Ha|]. apply Forall_nil_2.
Qed.

(** X5.  On a finite walk, [find<T>()] returns null exactly when no node of
    the walk, from the starting node to the root, has an entry under the key
    of [T]. *)
Theorem find_null_iff fuel h a l T :
  ancestors fuel h a = Some l →
  find fuel h a T = Ret None ↔ Forall (λ x, entry_at h x T = None) (a :: l).
Proof. intros Hl. split; [by apply find_null_walk|by apply find_none]. Qed.

(** X6.  When the first entry met on the walk under the key of [T] is a
    [type_settings<U>] for another type [U] (the keys of [T] and [U]
    coincide, as for [int] and [const int]), then [find<T>()], [push<T>()]
    and both [get<T>()] overloads throw "Existing child has unexpected type"
    and the store is unchanged. *)
Theorem key_alias_throws ai fuel h a l l1 q l2 d T U :
  ancestors fuel h a = Some l → a :: l = l1 ++ q :: l2 →
  Forall (λ x, entry_at h x T = None) l1 →
  entry_at h q T = Some d → holds_type h d U → U ≠ T →
  find fuel h a T = Throw TypeMismatch ∧
  _push fuel h a T = (Throw TypeMismatch, h) ∧
  _get ai fuel h a T = (Throw TypeMismatch, h) ∧
  _get_const fuel h a T = Throw TypeMismatch.
Proof.
  intros Hl Hs Hall Hq Hd Hne.
  assert (find fuel h a T = Throw TypeMismatch) as Hf.
  { rewrite (find_first_entry _ _ _ _ _ _ _ _ _ Hl Hs Hall Hq).
    by rewrite (dynamic_cast_other _ _ _ _ Hd Hne). }
  split; [done|]. split; [|split].
  - destruct fuel as [|fuel]; [done|]. simpl in Hl.
    destruct (h !! a) as [n|] eqn:Ha; [|done]. unfold _push. rewrite Ha.
    destruct l1 as [|x l1]; simpl in Hs.
    + injection Hs as <- ->. unfold entry_at in Hq. rewrite Ha in Hq. simpl in Hq.
      by rewrite Hq, (dynamic_cast_other _ _ _ _ Hd Hne).
    + injection Hs as <- ->. apply Forall_cons in Hall as [Hhere _].
      unfold entry_at in Hhere. rewrite Ha in Hhere. simpl in Hhere. rewrite Hhere.
      unfold has_parent. destruct (parent n) as [r|]; [|by destruct l1].
      by rewrite Hf.
  - unfold _get. by rewrite Hf.
  - unfold _get_const. by rewrite Hf.
Qed.

(** X7.  [get<T>()] resolves to the nearest entry itself: when the first
    entry on the walk under the key of [T] is a [type_settings<T>] [d], the
    mutable overload (under either auto-insert policy) and the const overload
    both return [d], and the store is unchanged; nothing is copied into the
    starting node. *)
Theorem get_returns_nearest ai fuel h a l l1 q l2 d T :
  ancestors fuel h a = Some l → a :: l = l1 ++ q :: l2 →
  Forall (λ x, entry_at h x T = None) l1 →
  entry_at h q T = Some d → holds_type h d T →
  _get ai fuel h a T = (Ret d, h) ∧ _get_const fuel h a T = Ret d.
Proof.
  intros Hl Hs Hall Hq Hd.
  assert (find fuel h a T = Ret (Some d)) as Hf.
  { rewrite (find_first_entry _ _ _ _ _ _ _ _ _ Hl Hs Hall Hq).
    by rewrite (dynamic_cast_holds _ _ _ Hd). }
  unfold _get, _get_const. by rewrite Hf.
Qed.

(** X8.  When neither the node nor any of its ancestors has an entry under
    the key of [T], [push<T>()] gives the node a new entry with the default
    value, the node as parent and no entries of its own; no other object
    changes. *)
Theorem push_creates_default fuel h a n l T :
  h !! a = Some n → ancestors fuel h a = Some l →
  Forall (λ x, entry_at h x T = None) (a :: l) →
  ∃ c h',
    _push fuel h a T = (Ret c, h') ∧ h !! c = None ∧
    h' !! c = Some {| dynamic := TypeSettings T (default_construct T);
                      parent := Some a; children := ∅ |} ∧
    h' !! a = Some (with_children (<[get_type_key T := c]> (children n)) n) ∧
    (∀ x, x ≠ a → x ≠ c → h' !! x = h !! x).
Proof.
  intros Ha Hl Hall. pose proof (find_none _ _ _ _ _ Hl Hall) as Hf.
  apply Forall_cons in Hall as [Hhere _]. unfold entry_at in Hhere.
  rewrite Ha in Hhere. simpl in Hhere.
  pose proof (fresh_ne _ _ _ Ha) as Hne.
  eexists (fresh (dom h)), _. split.
  - unfold _push. rewrite Ha, Hhere, Hf.
    destruct (has_parent n); by apply emplace_new_attach.
  - split; [apply fresh_unused|]. split; [by rewrite attach_new|].
    split; [by rewrite attach_this|]. intros x ??. by rewrite attach_other.
Qed.

(** X9.  [get<T>()] is idempotent: when a call returns [c], a second call
    from the same node, under either policy, returns [c] again and leaves
    the store as the first call left it. *)
Theorem get_idempotent ai ai' fuel h a c h' T :
  _get ai fuel h a T = (Ret c, h') → _get ai' fuel h' a T = (Ret c, h').
Proof.
  unfold _get at 1. destruct (find fuel h a T) as [[d|]| | |] eqn:Hf; try done.
  - intros [= <- <-]. unfold _get. by rewrite Hf.
  - destruct (h !! a) as [n|] eqn:Ha; [|done].
    destruct (is_root n && ai); [|done].
    pose proof (find_none_here _ _ _ _ _ Hf Ha) as Hk.
    rewrite (emplace_new_attach _ _ _ _ Ha Hk). intros [= <- <-].
    destruct (find_ret_fuel _ _ _ _ _ Hf) as [fuel' ->].
    pose proof (fresh_ne _ _ _ Ha) as Hne.
    unfold _get. erewrite find_here; [done|apply attach_this| |].
    + simpl. apply lookup_insert_eq.
    + eexists _, _. by rewrite attach_new.
Qed.

(** X10.  With auto-insert disabled, the mutable [get<T>()] has the outcome
    of the const overload and leaves the store unchanged. *)
Theorem get_without_policy_is_const fuel h a T :
  _get false fuel h a T = (_get_const fuel h a T, h).
Proof.
  unfold _get, _get_const.
  destruct (find fuel h a T) as [[d|]| | |] eqn:Hf; try done.
  destruct fuel as [|fuel]; [done|]. simpl in Hf.
  destruct (h !! a) as [n|]; [|done]. by rewrite andb_false_r.
Qed.

End extras.

(** ** Chains, invariants and termination *)

Section extras_chains.
Context {val : Type} `{!Payload val}.
Implicit Types (h : gmap positive (scope val)) (a p c d q this : positive) (T U : cpp_type).
Implicit Types (l : list positive) (n : scope val) (k : obj_type).

(** X11.  Every mutating operation keeps the store well shaped (entries
    typed by their key, one owner per entry, [parent] null or the owner,
    finite parent walks): single and chained [push] and [get],
    [push_default], and a consumer's write to an entry's data members. *)
Theorem operations_keep_shape ai fuel h a T Us e w :
  tree_ok h →
  tree_ok (push_chain fuel h a T Us).2 ∧
  tree_ok (get_chain ai fuel h a T Us).2 ∧
  tree_ok (push_default h a T).2 ∧
  tree_ok (write_value e w h).
Proof.
  intros Hok. split; [by apply push_chain_tree_ok|].
  split; [by apply get_chain_tree_ok|].
  split; [by apply push_default_tree_ok|by apply write_value_tree_ok].
Qed.

(** X12.  Single and chained [push] and [get] only ever add: every object
    of the store is still there afterwards, with the same dynamic class and
    data members, the same [parent], and all the entries it had. *)
Theorem push_get_only_add ai fuel h a T Us :
  keeps h (push_chain fuel h a T Us).2 ∧ keeps h (get_chain ai fuel h a T Us).2.
Proof. split; [apply push_chain_keeps|apply get_chain_keeps]. Qed.

(** X13.  A chained [push<T, Us...>()] from a node that has no entry under
    the key of [T] builds a fresh path: popping as many levels as there are
    types from the returned node comes back to the starting node. *)
Theorem push_chain_then_pop fuel h a n T Us c h' :
  h !! a = Some n → children n !! get_type_key T = None →
  push_chain fuel h a T Us = (Ret c, h') →
  pop (S (length Us)) h' c (Z.of_nat (length Us) + 1) = Ret a.
Proof.
  revert h a n T. induction Us as [|U Rest IH]; intros h a n T Ha Hk; simpl push_chain.
  - intros Hpush.
    destruct (push_new_cell _ _ _ _ _ _ _ Ha Hk Hpush) as (_ & nc & Hc & Hp & _).
    cbn [pop length]. rewrite Hc. unfold has_parent. by rewrite Hp.
  - destruct (_push fuel h a T) as [[c1| | |] h1] eqn:Hpush; try done.
    intros Hchain.
    destruct (push_new_cell _ _ _ _ _ _ _ Ha Hk Hpush) as (_ & nc1 & Hc1 & Hp1 & Hch1).
    assert (children nc1 !! get_type_key U = None) as Hk1 by (by rewrite Hch1).
    pose proof (IH _ _ _ _ Hc1 Hk1 Hchain) as Hpop.
    pose proof (push_chain_keeps fuel h1 c1 U Rest) as Hkeep.
    rewrite Hchain in Hkeep. simpl in Hkeep.
    destruct (Hkeep _ _ Hc1) as (nc1' & Hc1' & _ & Hp1' & _).
    assert (pop 1 h' c1 1 = Ret a) as Hlast.
    { cbn [pop]. rewrite Hc1'. unfold has_parent. by rewrite Hp1', Hp1. }
    pose proof (pop_compose_ret _ _ _ _ _ _ _ _ Hpop Hlast) as Hall.
    replace (S (length Rest) + 1)%nat with (S (length (U :: Rest))) in Hall
      by (simpl; lia).
    replace (Z.of_nat (length Rest) + 1 + 1) with (Z.of_nat (length (U :: Rest)) + 1)
      in Hall by (simpl length; lia).
    exact Hall.
Qed.

(** X14.  What a chained [push<T, Us...>()] returns is what the chained
    [get<T, Us...>()] from the same node then resolves to, for the mutable
    overload under either policy and for the const overload, and the lookup
    changes nothing. *)
Theorem push_chain_then_get_chain ai fuel h a T Us c h' :
  push_chain (S fuel) h a T Us = (Ret c, h') →
  get_chain ai (S fuel) h' a T Us = (Ret c, h') ∧
  get_const_chain (S fuel) h' a T Us = Ret c.
Proof.
  revert h a T. induction Us as [|U Rest IH]; intros h a T; simpl push_chain.
  - intros Hpush. destruct (push_ret_owns _ _ _ _ _ _ Hpush) as [(n' & Hn' & Hk') Hc].
    pose proof (find_here fuel _ _ _ _ _ Hn' Hk' Hc) as Hf.
    cbn [get_chain get_const_chain]. unfold get, _get, _get_const. by rewrite Hf.
  - destruct (_push (S fuel) h a T) as [[c1| | |] h1] eqn:Hpush; try done.
    intros Hchain. destruct (IH _ _ _ Hchain) as [Hget Hconst].
    destruct (push_ret_owns _ _ _ _ _ _ Hpush) as [Hown Hc1].
    pose proof (push_chain_keeps (S fuel) h1 c1 U Rest) as Hkeep.
    rewrite Hchain in Hkeep. simpl in Hkeep.
    destruct (keeps_owns _ _ _ _ _ Hkeep Hown) as (n' & Hn' & Hk').
    pose proof (keeps_holds_type _ _ _ _ Hkeep Hc1) as Hc1'.
    pose proof (find_here fuel _ _ _ _ _ Hn' Hk' Hc1') as Hf.
    cbn [get_chain get_const_chain]. unfold _get, _get_const. by rewrite Hf.
Qed.

(** X15.  In a well-shaped store the recursions end: from any object there
    is an amount of fuel from which on [find], [pop], [push] and [get] never
    run out of it, for any type, count and policy. *)
Theorem walks_terminate h a :
  tree_ok h → is_Some (h !! a) →
  ∃ fuel0, ∀ fuel T count ai, (fuel0 ≤ fuel)%nat →
    find fuel h a T ≠ OutOfFuel ∧ pop fuel h a count ≠ OutOfFuel ∧
    (_push fuel h a T).1 ≠ OutOfFuel ∧ (_get ai fuel h a T).1 ≠ OutOfFuel.
Proof.
  intros Hok Ha. destruct (ok_chain _ Hok a Ha) as (fuel0 & l & Hl).
  exists fuel0. intros fuel T count ai Hle.
  pose proof (ancestors_mono _ _ _ _ _ Hle Hl) as Hl'.
  pose proof (ancestors_enough_find _ _ _ _ T Hl') as Hf.
  split; [done|]. split; [by eapply ancestors_enough_pop|]. split.
  - unfold _push. destruct (h !! a) as [n|]; [|done].
    destruct (children n !! get_type_key T) as [e|].
    + unfold dynamic_cast. destruct (h !! e) as [ne|]; [|done].
      destruct (dynamic ne) as [|U w]; [done|]. by destruct (decide (U = T)).
    + destruct (has_parent n); [|done].
      destruct (find fuel h a T) as [[d|]| | |]; try done.
      by destruct (h !! d).
  - unfold _get. destruct (find fuel h a T) as [[d|]| | |]; try done.
    destruct (h !! a) as [n|]; [|done]. by destruct (is_root n && ai).
Qed.

(** X16.  In a well-shaped store, [pop()] on the entry that [push<T>()]
    returned comes back to the node pushed from, or throws "No parent to
    pop to" (the entry's [parent] is null); it never leads anywhere else. *)
Theorem push_then_pop fuel fuel' h a c h' T :
  tree_ok h → _push fuel h a T = (Ret c, h') →
  pop (S fuel') h' c 1 = Ret a ∨ pop (S fuel') h' c 1 = Throw NoParent.
Proof.
  intros Hok Hpush.
  assert (tree_ok h') as Hok'.
  { pose proof (push_tree_ok fuel h a T Hok) as H'. by rewrite Hpush in H'. }
  destruct (push_ret_owns _ _ _ _ _ _ Hpush) as [Hown (nc & v & Hc & _)].
  cbn [pop]. rewrite Hc. unfold has_parent.
  destruct (ok_parent _ Hok' _ _ _ _ Hown Hc) as [-> | ->]; [by left|by right].
Qed.

End extras_chains.

Section extras_errors.
Context {val : Type} `{!Payload val}.
Implicit Types (h : gmap positive (scope val)) (a p c d q this : positive) (T U : cpp_type).
Implicit Types (l : list positive) (n : scope val) (k : obj_type).

(** X17.  Two different types with the same key cannot both be stored at
    one node: once [push<T>()] has succeeded on a node, [push<U>()] and
    [push_default<U>()] on that node for another type [U] with the key of
    [T] (such as [const T] or [T&]) throw "Existing child has unexpected
    type" and change nothing. *)
Theorem alias_push_throws fuel fuel' h a c h' T U :
  _push fuel h a T = (Ret c, h') →
  get_type_key U = get_type_key T → U ≠ T →
  _push fuel' h' a U = (Throw TypeMismatch, h') ∧
  push_default h' a U = (Throw TypeMismatch, h').
Proof.
  intros Hpush Hkey Hne.
  destruct (push_ret_owns _ _ _ _ _ _ Hpush) as [(n' & Hn' & Hk') Hc].
  assert (dynamic_cast U h' c = Ret None) as Hdc.
  { apply (dynamic_cast_other _ _ U T Hc). by intros ->. }
  unfold _push, push_default. by rewrite Hn', Hkey, Hk', Hdc.
Qed.

(** X18.  A failing chained [get] is not rolled back.  On a parentless node
    with no entry under the keys of [T] and [U] (two different keys), the
    chained mutable [get<T, U, ...>()] with auto-insert enabled first inserts
    a default entry for [T], then throws "Type not found" for [U] because
    that new entry is not a root; the store it leaves is the one with the
    entry for [T] inserted. *)
Theorem chained_get_partial_insert fuel h a n T U Rest :
  h !! a = Some n → parent n = None →
  children n !! get_type_key T = None → children n !! get_type_key U = None →
  get_type_key U ≠ get_type_key T →
  ∃ c h1,
    _get true (S (S fuel)) h a T = (Ret c, h1) ∧
    get_chain true (S (S fuel)) h a T (U :: Rest) = (Throw NotFound, h1) ∧
    h !! c = None ∧ entry_at h1 a T = Some c.
Proof.
  intros Ha Hp HkT HkU Hkeys. pose proof (fresh_ne _ _ _ Ha) as Hne.
  set (c := fresh (dom h)).
  set (h1 := attach h a n (get_type_key T) c
               {| dynamic := TypeSettings T (default_construct T);
                  parent := Some a; children := ∅ |}).
  assert (_get true (S (S fuel)) h a T = (Ret c, h1)) as Hget.
  { unfold _get. cbn [find]. rewrite Ha, HkT, Hp. unfold is_root. rewrite Hp. simpl.
    by apply emplace_new_attach. }
  assert (_get true (S (S fuel)) h1 c U = (Throw NotFound, h1)) as Hmiss.
  { assert (h1 !! c = Some {| dynamic := TypeSettings T (default_construct T);
                                parent := Some a; children := ∅ |}) as Hc1
      by (by apply attach_new).
    assert (h1 !! a = Some (with_children (<[get_type_key T := c]> (children n)) n))
      as Ha1 by apply attach_this.
    unfold _get. cbn [find]. rewrite Hc1. cbn [children parent].
    rewrite lookup_empty, Ha1. cbn [children parent with_children].
    rewrite lookup_insert_ne by done. by rewrite HkU, Hp. }
  exists c, h1. split; [done|]. split; [|split].
  - cbn [get_chain]. rewrite Hget. destruct Rest as [|U2 Rest]; cbn [get_chain].
    + exact Hmiss.
    + by rewrite Hmiss.
  - apply fresh_unused.
  - unfold entry_at, h1. rewrite attach_this. simpl. apply lookup_insert_eq.
Qed.

End extras_errors.

(** *** Instances of the further properties *)

Lemma pop_returns_ancestor_witness :
  (ancestors 3 store_two_below 3 = Some [2%positive; root] ∧
   [2%positive; root] !! 1%nat = Some root) ∧
  pop 3 store_two_below 3 (Z.of_nat 1 + 1) = Ret root.
Proof.
  assert (ancestors 3 store_two_below 3 = Some [2%positive; root]) as Hl by (by vm_compute).
  assert ([2%positive; root] !! 1%nat = Some root) as Hi by reflexivity.
  split; [done|].
  exact (pop_returns_ancestor 3 store_two_below 3 [2%positive; root] 1 root Hl Hi).
Defined.

Lemma pop_throws_exactly_witness :
  ancestors 3 store_two_below 3 = Some [2%positive; root] ∧
  (pop 3 store_two_below 3 3 = Throw NoParent ↔
   3 = Z.of_nat (length [2%positive; root]) + 1).
Proof.
  assert (ancestors 3 store_two_below 3 = Some [2%positive; root]) as Hl by (by vm_compute).
  split; [done|].
  exact (pop_throws_exactly 3 store_two_below 3 [2%positive; root] 3 Hl).
Defined.

Lemma pop_compose_witness :
  (pop 1 store_two_below 3 1 = Ret 2%positive ∧ pop 1 store_two_below 2 1 = Ret root) ∧
  pop (1 + 1) store_two_below 3 (1 + 1) = Ret root.
Proof.
  assert (pop 1 store_two_below 3 1 = Ret 2%positive) as H1 by (by vm_compute).
  assert (pop 1 store_two_below 2 1 = Ret root) as H2 by (by vm_compute).
  split; [done|].
  exact (pop_compose 1 1 store_two_below 3 1 2 1 root H1 H2).
Defined.

Lemma find_some_iff_witness :
  ancestors 3 store_two_below 3 = Some [2%positive; root] ∧
  (find 3 store_two_below 3 t_int = Ret (Some 2%positive) ↔
   ∃ l1 q l2, 3%positive :: [2%positive; root] = l1 ++ q :: l2 ∧
     Forall (λ x, entry_at store_two_below x t_int = None) l1 ∧
     entry_at store_two_below q t_int = Some 2%positive ∧
     holds_type store_two_below 2 t_int).
Proof.
  assert (ancestors 3 store_two_below 3 = Some [2%positive; root]) as Hl by (by vm_compute).
  split; [done|].
  exact (find_some_iff 3 store_two_below 3 [2%positive; root] 2 t_int Hl).
Defined.

Lemma find_null_iff_witness :
  ancestors 2 store_child 2 = Some [root] ∧
  (find 2 store_child 2 t_double = Ret None ↔
   Forall (λ x, entry_at store_child x t_double = None) [2%positive; root]).
Proof.
  assert (ancestors 2 store_child 2 = Some [root]) as Hl by (by vm_compute).
  split; [done|].
  exact (find_null_iff 2 store_child 2 [root] t_double Hl).
Defined.

Lemma key_alias_throws_witness :
  (ancestors 3 store_two_below 3 = Some [2%positive; root] ∧
   3%positive :: [2%positive; root] = [3%positive; 2%positive] ++ root :: [] ∧
   Forall (λ x, entry_at store_two_below x t_const_int = None) [3%positive; 2%positive] ∧
   entry_at store_two_below root t_const_int = Some 2%positive ∧
   holds_type store_two_below 2 t_int ∧ t_int ≠ t_const_int) ∧
  find 3 store_two_below 3 t_const_int = Throw TypeMismatch ∧
  _push 3 store_two_below 3 t_const_int = (Throw TypeMismatch, store_two_below) ∧
  _get true 3 store_two_below 3 t_const_int = (Throw TypeMismatch, store_two_below) ∧
  _get_const 3 store_two_below 3 t_const_int = Throw TypeMismatch.
Proof.
  assert (ancestors 3 store_two_below 3 = Some [2%positive; root]) as Hl by (by vm_compute).
  assert (3%positive :: [2%positive; root] = [3%positive; 2%positive] ++ root :: [])
    as Hs by reflexivity.
  assert (Forall (λ x, entry_at store_two_below x t_const_int = None)
            [3%positive; 2%positive]) as Hall.
  { repeat constructor; by vm_compute. }
  assert (entry_at store_two_below root t_const_int = Some 2%positive) as Hq
    by (by vm_compute).
  assert (holds_type store_two_below 2 t_int) as Hd.
  { eexists _, _. split; by vm_compute. }
  assert (t_int ≠ t_const_int) as Hne by discriminate.
  split; [done|].
  exact (key_alias_throws true 3 store_two_below 3 [2%positive; root]
           [3%positive; 2%positive] root [] 2 t_const_int t_int Hl Hs Hall Hq Hd Hne).
Defined.

Lemma get_returns_nearest_witness :
  (ancestors 3 store_two_below 3 = Some [2%positive; root] ∧
   3%positive :: [2%positive; root] = [3%positive; 2%positive] ++ root :: [] ∧
   Forall (λ x, entry_at store_two_below x t_int = None) [3%positive; 2%positive] ∧
   entry_at store_two_below root t_int = Some 2%positive ∧
   holds_type store_two_below 2 t_int) ∧
  _get true 3 store_two_below 3 t_int = (Ret 2%positive, store_two_below) ∧
  _get_const 3 store_two_below 3 t_int = Ret 2%positive.
Proof.
  assert (ancestors 3 store_two_below 3 = Some [2%positive; root]) as Hl by (by vm_compute).
  assert (3%positive :: [2%positive; root] = [3%positive; 2%positive] ++ root :: [])
    as Hs by reflexivity.
  assert (Forall (λ x, entry_at store_two_below x t_int = None)
            [3%positive; 2%positive]) as Hall.
  { repeat constructor; by vm_compute. }
  assert (entry_at store_two_below root t_int = Some 2%positive) as Hq by (by vm_compute).
  assert (holds_type store_two_below 2 t_int) as Hd.
  { eexists _, _. split; by vm_compute. }
  split; [done|].
  exact (get_returns_nearest true 3 store_two_below 3 [2%positive; root]
           [3%positive; 2%positive] root [] 2 t_int Hl Hs Hall Hq Hd).
Defined.

Lemma push_creates_default_witness :
  ∃ n,
    (store_child !! 2%positive = Some n ∧ ancestors 2 store_child 2 = Some [root] ∧
     Forall (λ x, entry_at store_child x t_double = None) [2%positive; root]) ∧
    ∃ c h',
      _push 2 store_child 2 t_double = (Ret c, h') ∧ store_child !! c = None ∧
      h' !! c = Some {| dynamic := TypeSettings t_double (default_construct t_double);
                        parent := Some 2%positive; children := ∅ |} ∧
      h' !! 2%positive =
        Some (with_children (<[get_type_key t_double := c]> (children n)) n) ∧
      (∀ x, x ≠ 2%positive → x ≠ c → h' !! x = store_child !! x).
Proof.
  destruct (store_child !! 2%positive) as [n|] eqn:Hn; [|by vm_compute in Hn].
  exists n.
  assert (ancestors 2 store_child 2 = Some [root]) as Hl by (by vm_compute).
  assert (Forall (λ x, entry_at store_child x t_double = None) [2%positive; root]) as Hall.
  { repeat constructor; by vm_compute. }
  split; [done|].
  exact (push_creates_default 2 store_child 2 n [root] t_double Hn Hl Hall).
Defined.

Lemma get_idempotent_witness :
  _get true 1 (root_store (val := Z)) root t_int = (Ret 2%positive, store_child) ∧
  _get false 1 store_child root t_int = (Ret 2%positive, store_child).
Proof.
  assert (_get true 1 (root_store (val := Z)) root t_int = (Ret 2%positive, store_child))
    as Hget by (by vm_compute).
  split; [done|].
  exact (get_idempotent true false 1 root_store root 2 store_child t_int Hget).
Defined.

Lemma operations_keep_shape_witness :
  tree_ok (root_store (val := Z)) ∧
  tree_ok (push_chain 2 (root_store (val := Z)) root t_int [t_double]).2 ∧
  tree_ok (get_chain true 2 (root_store (val := Z)) root t_int [t_double]).2 ∧
  tree_ok (push_default (root_store (val := Z)) root t_int).2 ∧
  tree_ok (write_value root 5 (root_store (val := Z))).
Proof.
  pose proof (tree_ok_root (val := Z)) as Hok.
  split; [done|].
  exact (operations_keep_shape true 2 root_store root t_int [t_double] root 5 Hok).
Defined.

Lemma push_chain_then_pop_witness :
  ∃ n,
    (root_store (val := Z) !! root = Some n ∧ children n !! get_type_key t_int = None ∧
     push_chain 2 (root_store (val := Z)) root t_int [t_double]
       = (Ret 3%positive, store_two_below)) ∧
    pop (S (length [t_double])) store_two_below 3 (Z.of_nat (length [t_double]) + 1)
      = Ret root.
Proof.
  destruct (root_store (val := Z) !! root) as [n|] eqn:Hn; [|by vm_compute in Hn].
  exists n.
  assert (children n !! get_type_key t_int = None) as Hk.
  { vm_compute in Hn. injection Hn as <-. by vm_compute. }
  assert (push_chain 2 (root_store (val := Z)) root t_int [t_double]
            = (Ret 3%positive, store_two_below)) as Hpush by (by vm_compute).
  split; [done|].
  exact (push_chain_then_pop 2 root_store root n t_int [t_double] 3 store_two_below
           Hn Hk Hpush).
Defined.

Lemma push_chain_then_get_chain_witness :
  push_chain 2 (root_store (val := Z)) root t_int [t_double]
    = (Ret 3%positive, store_two_below) ∧
  get_chain false 2 store_two_below root t_int [t_double] = (Ret 3%positive, store_two_below) ∧
  get_const_chain 2 store_two_below root t_int [t_double] = Ret 3%positive.
Proof.
  assert (push_chain 2 (root_store (val := Z)) root t_int [t_double]
            = (Ret 3%positive, store_two_below)) as Hpush by (by vm_compute).
  split; [done|].
  exact (push_chain_then_get_chain false 1 root_store root t_int [t_double] 3
           store_two_below Hpush).
Defined.

Lemma walks_terminate_witness :
  (tree_ok store_two_below ∧ is_Some (store_two_below !! 3%positive)) ∧
  ∃ fuel0, ∀ fuel T count ai, (fuel0 ≤ fuel)%nat →
    find fuel store_two_below 3 T ≠ OutOfFuel ∧
    pop fuel store_two_below 3 count ≠ OutOfFuel ∧
    (_push fuel store_two_below 3 T).1 ≠ OutOfFuel ∧
    (_get ai fuel store_two_below 3 T).1 ≠ OutOfFuel.
Proof.
  assert (tree_ok store_two_below) as Hok.
  { unfold store_two_below, store_child. apply push_tree_ok, push_tree_ok, tree_ok_root. }
  assert (is_Some (store_two_below !! 3%positive)) as Ha.
  { destruct (store_two_below !! 3%positive) eqn:E; [by eexists|by vm_compute in E]. }
  split; [done|].
  exact (walks_terminate store_two_below 3 Hok Ha).
Defined.

Lemma push_then_pop_witness :
  (tree_ok (root_store (val := Z)) ∧
   _push 1 (root_store (val := Z)) root t_int = (Ret 2%positive, store_child)) ∧
  (pop (S 0) store_child 2 1 = Ret root ∨ pop (S 0) store_child 2 1 = Throw NoParent).
Proof.
  pose proof (tree_ok_root (val := Z)) as Hok.
  assert (_push 1 (root_store (val := Z)) root t_int = (Ret 2%positive, store_child))
    as Hpush by (by vm_compute).
  split; [done|].
  exact (push_then_pop 1 0 root_store root 2 store_child t_int Hok Hpush).
Defined.

Lemma alias_push_throws_witness :
  (_push 1 (root_store (val := Z)) root t_int = (Ret 2%positive, store_child) ∧
   get_type_key t_const_int = get_type_key t_int ∧ t_const_int ≠ t_int) ∧
  _push 1 store_child root t_const_int = (Throw TypeMismatch, store_child) ∧
  push_default store_child root t_const_int = (Throw TypeMismatch, store_child).
Proof.
  assert (_push 1 (root_store (val := Z)) root t_int = (Ret 2%positive, store_child))
    as Hpush by (by vm_compute).
  assert (get_type_key t_const_int = get_type_key t_int) as Hkey by reflexivity.
  assert (t_const_int ≠ t_int) as Hne by discriminate.
  split; [done|].
  exact (alias_push_throws 1 1 root_store root 2 store_child t_int t_const_int
           Hpush Hkey Hne).
Defined.

Lemma chained_get_partial_insert_witness :
  ∃ n,
    (root_store (val := Z) !! root = Some n ∧ parent n = None ∧
     children n !! get_type_key t_int = None ∧
     children n !! get_type_key t_double = None ∧
     get_type_key t_double ≠ get_type_key t_int) ∧
    ∃ c h1,
      _get true (S (S 0)) (root_store (val := Z)) root t_int = (Ret c, h1) ∧
      get_chain true (S (S 0)) (root_store (val := Z)) root t_int (t_double :: [])
        = (Throw NotFound, h1) ∧
      root_store (val := Z) !! c = None ∧ entry_at h1 root t_int = Some c.
Proof.
  destruct (root_store (val := Z) !! root) as [n|] eqn:Hn; [|by vm_compute in Hn].
  exists n.
  assert (parent n = None ∧ children n !! get_type_key t_int = None ∧
          children n !! get_type_key t_double = None) as (Hp & HkT & HkU).
  { vm_compute in Hn. injection Hn as <-. repeat split; by vm_compute. }
  assert (get_type_key t_double ≠ get_type_key t_int) as Hkeys by discriminate.
  split; [done|].
  exact (chained_get_partial_insert 0 root_store root n t_int t_double [] Hn Hp HkT HkU Hkeys).
Defined.

(** ** Owners come first: the numbering kept by every operation *)

Section ranking.
Context {val : Type} `{!Payload val}.
Implicit Types (h : gmap positive (scope val)) (a p c d q e this : positive) (T U : cpp_type).
Implicit Types (l : list positive) (n : scope val) (k : obj_type).

Lemma tree_ok_parent_alloc h x nx p :
  tree_ok h → h !! x = Some nx → parent nx = Some p → is_Some (h !! p).
Proof.
  intros Hok Hx Hp. destruct (ok_chain _ Hok x) as (fuel & l & Hl); [by eexists|].
  destruct fuel as [|fuel]; [done|]. simpl in Hl. rewrite Hx, Hp in Hl.
  destruct fuel as [|fuel]; [done|]. simpl in Hl.
  destruct (h !! p); [by eexists|done].
Qed.

Lemma ranked_root : ranked (root_store (val := val)).
Proof.
  exists (λ _, 0%nat). unfold root_store. split.
  - intros a k c (n & Hn & Hk). apply lookup_singleton_Some in Hn as [_ <-]. done.
  - intros x nx p Hx. apply lookup_singleton_Some in Hx as [_ <-]. done.
Qed.

Lemma ranked_attach h this n T v c :
  tree_ok h → ranked h →
  h !! this = Some n → children n !! get_type_key T = None → h !! c = None →
  ranked (attach h this n (get_type_key T) c
            {| dynamic := TypeSettings T v; parent := Some this; children := ∅ |}).
Proof.
  intros Hok (rank & Hown & Hpar) Hthis Hkey Hc.
  assert (this ≠ c) as Hne by (intros ->; congruence).
  exists (λ x, if decide (x = c) then S (rank this) else rank x). split.
  - intros a k e Ho. apply attach_owns in Ho; [|done..].
    destruct Ho as [Ho|(-> & -> & ->)].
    + assert (a ≠ c) as Hac by (destruct Ho as (m & Hm & _); intros ->; congruence).
      assert (e ≠ c) as Hec.
      { destruct (ok_entry _ Hok _ _ _ Ho) as (U & (m & w & Hm & _) & _).
        intros ->. congruence. }
      rewrite !decide_False by done. by eapply Hown.
    + rewrite decide_False by done. rewrite decide_True by done. lia.
  - intros x nx' p Hx Hp. destruct (decide (x = c)) as [->|Hxc].
    + rewrite attach_new in Hx by done. injection Hx as <-. simpl in Hp.
      injection Hp as <-. rewrite decide_False by done. lia.
    + assert (∃ nx, h !! x = Some nx ∧ parent nx = Some p) as (nx & Hnx & Hpx).
      { destruct (decide (x = this)) as [->|Hxt].
        - rewrite attach_this in Hx. injection Hx as <-. by exists n.
        - rewrite attach_other in Hx by done. by exists nx'. }
      assert (p ≠ c) as Hpc.
      { destruct (tree_ok_parent_alloc _ _ _ _ Hok Hnx Hpx) as [np Hnp].
        intros ->. congruence. }
      rewrite decide_False by done. by eapply Hpar.
Qed.

Lemma ranked_reset h c T : ranked h → ranked (<[c := value_init T]> h).
Proof.
  intros (rank & Hown & Hpar). exists rank. split.
  - intros a k e (m & Hm & Hk). destruct (decide (a = c)) as [->|Hac].
    + rewrite lookup_insert_eq in Hm. by injection Hm as <-.
    + rewrite lookup_insert_ne in Hm by done. apply (Hown a k e). by exists m.
  - intros x nx p Hx Hp. destruct (decide (x = c)) as [->|Hxc].
    + rewrite lookup_insert_eq in Hx. by injection Hx as <-.
    + rewrite lookup_insert_ne in Hx by done. by eapply Hpar.
Qed.

Lemma grows_ranked h this T h' : tree_ok h → ranked h → grows h this T h' → ranked h'.
Proof.
  intros Hok Hr [->|n v Hn Hk ->]; [done|].
  apply ranked_attach; [done..|apply fresh_unused].
Qed.

Lemma push_ranked fuel h this T :
  tree_ok h → ranked h → ranked (_push fuel h this T).2.
Proof. intros Hok Hr. eapply grows_ranked; [done..|apply push_grows]. Qed.

Lemma get_ranked ai fuel h this T :
  tree_ok h → ranked h → ranked (_get ai fuel h this T).2.
Proof. intros Hok Hr. eapply grows_ranked; [done..|apply get_grows]. Qed.

Lemma push_default_ranked h this T :
  tree_ok h → ranked h → ranked (push_default h this T).2.
Proof.
  intros Hok Hr. destruct (push_default_shape h this T) as [Hg|[c Ho Hc ->]].
  - by eapply grows_ranked.
  - by apply ranked_reset.
Qed.

Lemma write_value_ranked h e w : ranked h → ranked (write_value e w h).
Proof.
  intros (rank & Hown & Hpar).
  assert (Hcell : ∀ x nx', write_value e w h !! x = Some nx' →
            ∃ nx, h !! x = Some nx ∧ parent nx' = parent nx ∧ children nx' = children nx).
  { intros x nx'. unfold write_value. destruct (decide (e = x)) as [->|Hne].
    - rewrite lookup_alter_eq. destruct (h !! x) as [nx|]; simpl; [|done].
      intros [= <-]. exists nx. by destruct (dynamic nx).
    - rewrite lookup_alter_ne by done. intros Hx. by exists nx'. }
  exists rank. split.
  - intros a k c (m' & Hm' & Hk). destruct (Hcell _ _ Hm') as (m & Hm & _ & Hch).
    apply (Hown a k c). exists m. by rewrite <- Hch.
  - intros x nx' p Hx Hp. destruct (Hcell _ _ Hx) as (nx & Hnx & Hpx & _).
    apply (Hpar x nx p); [done|congruence].
Qed.

(** What is nested in [c] has an owner that is [c] or is nested in [c]. *)
Lemma nested_owner h c x :
  nested_in h c x → ∃ y k, owns h y k x ∧ (y = c ∨ nested_in h c y).
Proof.
  destruct 1 as [k x Ho|y k x Hy Ho]; [exists c, k|exists y, k]; eauto.
Qed.

Lemma nested_rank h c x (rank : positive → nat) :
  (∀ a k e, owns h a k e → (rank a < rank e)%nat) →
  nested_in h c x → (rank c < rank x)%nat.
Proof.
  intros Hown. induction 1 as [k x Ho|y k x Hy IH Ho].
  - by eapply Hown.
  - pose proof (Hown _ _ _ Ho). lia.
Qed.

Lemma ancestors_rank fuel h a l q (rank : positive → nat) :
  (∀ x nx p, h !! x = Some nx → parent nx = Some p → (rank p < rank x)%nat) →
  ancestors fuel h a = Some l → q ∈ l → (rank q < rank a)%nat.
Proof.
  intros Hpar. revert a l. induction fuel as [|fuel IH]; intros a l; simpl; [done|].
  destruct (h !! a) as [n|] eqn:Ha; [|done].
  destruct (parent n) as [r|] eqn:Hr; [|intros [= <-] Hq; by apply elem_of_nil in Hq].
  destruct (ancestors fuel h r) as [l'|] eqn:E; simpl; [|done].
  intros [= <-] Hq. pose proof (Hpar _ _ _ Ha Hr) as Hlt.
  apply elem_of_cons in Hq as [->|Hq]; [done|].
  pose proof (IH _ _ E Hq). lia.
Qed.

(** In a well-shaped, ranked store the entries of the ancestors of [a] lie
    outside every entry of [a]: they are neither that entry nor nested in
    it. *)
Lemma ancestor_entry_outside fuel h a l k c q k' e :
  tree_ok h → ranked h → ancestors fuel h a = Some l →
  owns h a k c → q ∈ l → owns h q k' e →
  e ≠ c ∧ ¬ nested_in h c e.
Proof.
  intros Hok (rank & Hown & Hpar) Hl Hac Hq Hqe.
  pose proof (ancestors_rank _ _ _ _ _ rank Hpar Hl Hq) as Hqa.
  pose proof (Hown _ _ _ Hac) as Hca. split.
  - intros ->. destruct (ok_owner _ Hok _ _ _ _ _ Hac Hqe) as [-> _]. lia.
  - intros Hnest. destruct (nested_owner _ _ _ Hnest) as (y & ky & Hye & Hy).
    destruct (ok_owner _ Hok _ _ _ _ _ Hqe Hye) as [-> _].
    destruct Hy as [->|Hy]; [lia|].
    pose proof (nested_rank _ _ _ rank Hown Hy). lia.
Qed.

(** C5 (as amended).  In a well-shaped store, [push_default<T>()] on a node
    [a] looks only at the entry of [a] under the key of [T].  If that entry
    [c] is a [type_settings<T>], the call returns [c] with its value
    replaced by the default and its entries cleared; every object that is
    neither [c] nor nested in [c] is unchanged, and the entries for [T] of
    the ancestors of [a] are such objects.  If that entry is a
    [type_settings<U>] for another type [U], the call throws "Existing child
    has unexpected type" and changes nothing.  If [a] has no entry under the
    key, a fresh default entry is attached to [a], whatever the ancestors
    hold, and no other object changes. *)
Theorem push_default_by_key fuel h a n l T :
  tree_ok h → ranked h → h !! a = Some n → ancestors fuel h a = Some l →
  (∀ c, children n !! get_type_key T = Some c → holds_type h c T →
     ∃ h', push_default h a T = (Ret c, h') ∧
       dynamic <$> h' !! c = Some (TypeSettings T (default_construct T)) ∧
       children <$> h' !! c = Some ∅ ∧
       (∀ x, x ≠ c → ¬ nested_in h c x → h' !! x = h !! x) ∧
       (∀ q e, q ∈ l → entry_at h q T = Some e →
               e ≠ c ∧ ¬ nested_in h c e ∧ h' !! e = h !! e)) ∧
  (∀ c U, children n !! get_type_key T = Some c → holds_type h c U → U ≠ T →
     push_default h a T = (Throw TypeMismatch, h)) ∧
  (children n !! get_type_key T = None →
     ∃ c h', push_default h a T = (Ret c, h') ∧ h !! c = None ∧
       h' !! c = Some {| dynamic := TypeSettings T (default_construct T);
                         parent := Some a; children := ∅ |} ∧
       h' !! a = Some (with_children (<[get_type_key T := c]> (children n)) n) ∧
       (∀ x, x ≠ a → x ≠ c → h' !! x = h !! x)).
Proof.
  intros Hok Hr Ha Hl. split; [|split].
  - intros c Hk Hc. exists (<[c := value_init T]> h).
    split; [by eapply push_default_reset|].
    rewrite lookup_insert_eq. do 2 (split; [done|]).
    split; [intros x Hx _; by rewrite lookup_insert_ne|].
    intros q e Hq He.
    assert (owns h q (get_type_key T) e) as Hqe.
    { unfold entry_at in He. destruct (h !! q) as [nq|] eqn:Hnq; simpl in He; [|done].
      by exists nq. }
    assert (owns h a (get_type_key T) c) as Hac by (by exists n).
    destruct (ancestor_entry_outside _ _ _ _ _ _ _ _ _ Hok Hr Hl Hac Hq Hqe) as [Hec Hout].
    do 2 (split; [done|]). by rewrite lookup_insert_ne.
  - intros c U Hk Hc Hne. unfold push_default.
    by rewrite Ha, Hk, (dynamic_cast_other _ _ _ _ Hc Hne).
  - intros Hk. pose proof (fresh_ne _ _ _ Ha) as Hne.
    eexists (fresh (dom h)), _. unfold push_default. rewrite Ha, Hk.
    split; [by apply emplace_new_attach|].
    split; [apply fresh_unused|].
    split; [by rewrite attach_new|]. split; [by rewrite attach_this|].
    intros x ??. by rewrite attach_other.
Qed.

End ranking.

(** C5, counterexample.  The only entry of the root is object 2, a
    [type_settings<int>]; no entry for [const int] exists at the root.
    [push_default<const int>()] on the root creates nothing: it throws
    "Existing child has unexpected type". *)
Lemma push_default_alias_throws :
  children <$> store_child !! root = Some {[ get_type_key t_int := 2%positive ]} ∧
  holds_type store_child 2 t_int ∧ t_int ≠ t_const_int ∧
  push_default store_child root t_const_int = (Throw TypeMismatch, store_child).
Proof.
  split; [by vm_compute|]. split; [eexists _, _; split; by vm_compute|].
  split; [discriminate|by vm_compute].
Qed.

(** C7, counterexample.  In the store built by [root.push<int>()] no object
    is a [type_settings<const int>]: [const int] was never pushed anywhere.
    Yet [find<const int>()] does not return null, from the root or from the
    entry, and [get<const int>()] with auto-insert disabled does not throw
    "Type not found": both throw "Existing child has unexpected type". *)
Lemma find_alias_not_absent :
  (∀ c, ¬ holds_type store_child c t_const_int) ∧
  find 2 store_child root t_const_int = Throw TypeMismatch ∧
  find 2 store_child 2 t_const_int = Throw TypeMismatch ∧
  _get false 2 store_child 2 t_const_int = (Throw TypeMismatch, store_child).
Proof.
  split; [|repeat split; by vm_compute].
  assert (store_child =
            <[root := {| dynamic := PlainScope; parent := None;
                         children := {[ get_type_key t_int := 2%positive ]} |}]>
              (<[2%positive := {| dynamic := TypeSettings t_int 0;
                                  parent := Some root; children := ∅ |}]> ∅)) as Heq
    by (by vm_compute).
  intros c (n & v & Hn & Hd). rewrite Heq in Hn.
  apply lookup_insert_Some in Hn as [[_ <-]|[_ Hn]]; [done|].
  apply lookup_insert_Some in Hn as [[_ <-]|[_ Hn]]; [done|].
  by rewrite lookup_empty in Hn.
Qed.

Lemma push_default_by_key_witness :
  ∃ n,
    (tree_ok store_int_int_double ∧ ranked store_int_int_double ∧
     store_int_int_double !! 2%positive = Some n ∧
     ancestors 2 store_int_int_double 2 = Some [root] ∧
     children n !! get_type_key t_int = Some 3%positive ∧
     holds_type store_int_int_double 3 t_int) ∧
    nested_in store_int_int_double 3 4 ∧
    ∃ h', push_default store_int_int_double 2 t_int = (Ret 3%positive, h') ∧
      dynamic <$> h' !! 3%positive = Some (TypeSettings t_int (default_construct t_int)) ∧
      children <$> h' !! 3%positive = Some ∅ ∧
      (∀ x, x ≠ 3%positive → ¬ nested_in store_int_int_double 3 x →
            h' !! x = store_int_int_double !! x) ∧
      (∀ q e, q ∈ [root] → entry_at store_int_int_double q t_int = Some e →
              e ≠ 3%positive ∧ ¬ nested_in store_int_int_double 3 e ∧
              h' !! e = store_int_int_double !! e).
Proof.
  destruct (store_int_int_double !! 2%positive) as [n|] eqn:Hn; [|by vm_compute in Hn].
  exists n.
  assert (tree_ok store_child) as Hok1.
  { unfold store_child. apply push_tree_ok, tree_ok_root. }
  assert (ranked store_child) as Hr1.
  { unfold store_child. apply push_ranked; [apply tree_ok_root|apply ranked_root]. }
  assert (tree_ok store_int_int) as Hok2.
  { unfold store_int_int. by apply push_tree_ok. }
  assert (ranked store_int_int) as Hr2.
  { unfold store_int_int. by apply push_ranked. }
  assert (tree_ok store_int_int_double) as Hok.
  { unfold store_int_int_double. by apply push_tree_ok. }
  assert (ranked store_int_int_double) as Hr.
  { unfold store_int_int_double. by apply push_ranked. }
  assert (ancestors 2 store_int_int_double 2 = Some [root]) as Hl by (by vm_compute).
  assert (children n !! get_type_key t_int = Some 3%positive) as Hk.
  { vm_compute in Hn. injection Hn as <-. by vm_compute. }
  assert (holds_type store_int_int_double 3 t_int) as Hc.
  { eexists _, _. split; by vm_compute. }
  assert (nested_in store_int_int_double 3 4) as Hnest.
  { apply (nested_entry _ _ (get_type_key t_double)). eexists. split; by vm_compute. }
  split; [done|]. split; [done|].
  exact (proj1 (push_default_by_key 2 store_int_int_double 2 n [root] t_int Hok Hr Hn Hl)
           3%positive Hk Hc).
Defined.
